(** * gaper: the file watcher (watcher.go)

    A shallow embedding of [watcher.go]: path resolution
    ([resolvePaths], [removeOverlappedPaths]), the polling scanner
    ([scanChange], driven by [filepath.Walk]) and the watch loop ([Watch]),
    followed by the properties of the watcher's specification.

    Go values are modelled as follows.
    - [string] is a byte string: Rocq's [string] (a list of 8-bit [ascii]).
    - [map[string]bool] is [gmap string bool]; a [range] over a map visits
      its keys in an order chosen by the runtime, given here by an oracle.
    - [time.Time] is an integer number of nanoseconds ([Z]); [int] is a
      64-bit integer, its wrap-around written out where arithmetic occurs.
    - [error] values are compared by identity; [nil] is [None].
    - A nil-pointer dereference or an index out of range is [Panic]. *)

From Stdlib Require Import ZArith Ascii String List Bool Lia.
From stdpp Require Import base option list strings gmap fin_maps sets.

Local Open Scope string_scope.
Local Open Scope Z_scope.

(** ** Results, errors and panics *)

(** A Go [error] that is not [nil].  [SkipDir] is [filepath.SkipDir],
    [errDetectedChange] is the package variable of line 69, and [Errorf]
    stands for any other error value, carrying its message. *)
Inductive error : Type :=
| SkipDir
| errDetectedChange
| Errorf (msg : string).

Definition error_eqb (a b : error) : bool :=
  match a, b with
  | SkipDir, SkipDir => true
  | errDetectedChange, errDetectedChange => true
  | Errorf x, Errorf y => String.eqb x y
  | _, _ => false
  end.

(** [err.Error()] *)
Definition Error (e : error) : string :=
  match e with
  | SkipDir => "skip this directory"
  | errDetectedChange => "done"
  | Errorf msg => msg
  end.

(** A function returning [(T, error)]. *)
Inductive Result (A : Type) : Type :=
| Ok (a : A)
| Err (e : error).
Arguments Ok {A} a.
Arguments Err {A} e.

(** A computation that may panic. *)
Inductive Outcome (A : Type) : Type :=
| Normal (a : A)
| Panic.
Arguments Normal {A} a.
Arguments Panic {A}.

(** ** Strings and paths (package [strings], package [path/filepath] on Unix) *)

Definition slash : ascii := "/"%char.
Definition dot : ascii := "."%char.
Definition dquote : string := String (ascii_of_nat 34) EmptyString.

Definition IsPathSeparator (c : ascii) : bool := Ascii.eqb c slash.

(** [strings.HasPrefix(s, prefix)] *)
Fixpoint HasPrefix (s prefix : string) {struct prefix} : bool :=
  match prefix, s with
  | EmptyString, _ => true
  | String c p', String d s' => Ascii.eqb c d && HasPrefix s' p'
  | String _ _, EmptyString => false
  end.

(** [strings.Contains(s, substr)] *)
Fixpoint Contains (s substr : string) : bool :=
  HasPrefix s substr
  || match s with
     | EmptyString => false
     | String _ s' => Contains s' substr
     end.

(** The scan of [filepath.Ext], from the last byte backwards. *)
Fixpoint ext_scan (r acc : list ascii) : list ascii :=
  match r with
  | [] => []
  | c :: r' =>
      if IsPathSeparator c then []
      else if Ascii.eqb c dot then c :: acc
      else ext_scan r' (c :: acc)
  end.

(** [filepath.Ext(path)]: the suffix beginning at the final dot in the
    final element of [path]; empty if there is no dot. *)
Definition Ext (path : string) : string :=
  string_of_list_ascii (ext_scan (rev (list_ascii_of_string path)) []).

Fixpoint drop_seps (r : list ascii) : list ascii :=
  match r with
  | c :: r' => if IsPathSeparator c then drop_seps r' else r
  | [] => []
  end.

Fixpoint take_elem (r acc : list ascii) : list ascii :=
  match r with
  | c :: r' => if IsPathSeparator c then acc else take_elem r' (c :: acc)
  | [] => acc
  end.

(** [filepath.Base(path)]: the last element of [path], trailing slashes
    removed; ["."] for the empty path, ["/"] for a path of slashes. *)
Definition Base (path : string) : string :=
  match path with
  | EmptyString => "."
  | _ =>
      match take_elem (drop_seps (rev (list_ascii_of_string path))) [] with
      | [] => "/"
      | e => string_of_list_ascii e
      end
  end.

(** The elements of a path between its separators. *)
Fixpoint split_elems (l cur : list ascii) : list (list ascii) :=
  match l with
  | [] => [rev cur]
  | c :: l' =>
      if IsPathSeparator c then rev cur :: split_elems l' []
      else split_elems l' (c :: cur)
  end.

Definition is_dot (e : list ascii) : bool :=
  match e with [c] => Ascii.eqb c dot | _ => false end.

Definition is_dotdot (e : list ascii) : bool :=
  match e with [c; d] => Ascii.eqb c dot && Ascii.eqb d dot | _ => false end.

(** One element of the loop of [filepath.Clean]; [out] is the output so
    far, last element first. *)
Definition clean_elem (rooted : bool) (out : list (list ascii)) (e : list ascii)
  : list (list ascii) :=
  match e with
  | [] => out
  | _ =>
      if is_dot e then out
      else if is_dotdot e then
        match out with
        | top :: rest =>
            if is_dotdot top then e :: out else rest
        | [] => if rooted then [] else [e]
        end
      else e :: out
  end.

Fixpoint join_elems (es : list (list ascii)) : list ascii :=
  match es with
  | [] => []
  | [e] => e
  | e :: es' => e ++ slash :: join_elems es'
  end.

(** [filepath.Clean(path)] *)
Definition Clean (path : string) : string :=
  match path with
  | EmptyString => "."
  | String c _ =>
      let rooted := IsPathSeparator c in
      let out := fold_left (clean_elem rooted)
                   (split_elems (list_ascii_of_string path) []) [] in
      let body := join_elems (rev out) in
      match rooted, body with
      | true, _ => String slash (string_of_list_ascii body)
      | false, [] => "."
      | false, _ => string_of_list_ascii body
      end
  end.

(** [filepath.Join(dir, name)] *)
Definition Join (dir name : string) : string :=
  match dir, name with
  | EmptyString, EmptyString => ""
  | EmptyString, _ => Clean name
  | _, _ => Clean (dir ++ String slash name)
  end.

(** ** Maps and the order of [range] *)

(** The keys of a map, in the canonical order of the representation. *)
Definition keys (m : gmap string bool) : list string := (map_to_list m).*1.

(** [_, ok := m[k]] *)
Definition has_key (m : gmap string bool) (k : string) : bool :=
  bool_decide (is_Some (m !! k)).

(** [m[k]] used as a value: the zero value [false] when the key is absent. *)
Definition index_or_zero (m : gmap string bool) (k : string) : bool :=
  default false (m !! k).

(** Go leaves the iteration order of [range] over a map unspecified, and
    it may differ from one loop to the next.  A [RangeOracle] fixes the
    order of every [range] statement of [removeOverlappedPaths]: the outer
    loop, the inner loop (one order per outer iteration, named by the
    outer key) and the cleanup loop.  Each is given as a rearrangement of
    the canonical key list. *)
Record RangeOracle : Type := {
  outer_order : list string -> list string;
  inner_order : string -> list string -> list string;
  cleanup_order : list string -> list string
}.

(** An oracle is valid when every loop visits every key exactly once. *)
Definition valid_oracle (o : RangeOracle) : Prop :=
  (forall l, outer_order o l ≡ₚ l)
  /\ (forall p l, inner_order o p l ≡ₚ l)
  /\ (forall l, cleanup_order o l ≡ₚ l).

Definition canonical_oracle : RangeOracle :=
  {| outer_order := fun l => l;
     inner_order := fun _ l => l;
     cleanup_order := fun l => l |}.

Definition reverse_oracle : RangeOracle :=
  {| outer_order := fun l => rev l;
     inner_order := fun _ l => rev l;
     cleanup_order := fun l => rev l |}.

(** ** Overlap removal (lines 169-195) *)

(** Body of the inner loop, lines 176-186. *)
Definition overlap_inner_body (p1 : string) (mapPaths : gmap string bool)
  (p2 : string) : gmap string bool :=
  if String.eqb p1 p2 then mapPaths
  else if HasPrefix p2 p1 then <[p2 := false]> mapPaths
  else if HasPrefix p1 p2 then <[p1 := false]> mapPaths
  else mapPaths.

(** Body of the outer loop, lines 170-187. *)
Definition overlap_outer_body (o : RangeOracle) (mapPaths : gmap string bool)
  (p1 : string) : gmap string bool :=
  match mapPaths !! p1 with
  | Some false => mapPaths
  | _ => fold_left (overlap_inner_body p1)
           (inner_order o p1 (keys mapPaths)) mapPaths
  end.

(** Body of the cleanup loop, lines 190-194. *)
Definition cleanup_body (mapPaths : gmap string bool) (p : string)
  : gmap string bool :=
  if negb (index_or_zero mapPaths p) then delete p mapPaths else mapPaths.

Definition removeOverlappedPaths (o : RangeOracle) (mapPaths : gmap string bool)
  : gmap string bool :=
  let marked := fold_left (overlap_outer_body o)
                  (outer_order o (keys mapPaths)) mapPaths in
  fold_left cleanup_body (cleanup_order o (keys marked)) marked.

(** ** Path resolution (lines 133-166) *)

Section Resolve.

(** [zglob.Glob]: the expansion of a pattern against the filesystem, or
    an error.  The library and the filesystem are outside this file. *)
Variable Glob : string -> Result (list string).

(** The error of line 144. *)
Definition globError (path : string) (err : error) : error :=
  Errorf ("couldn't resolve glob path " ++ dquote ++ path ++ dquote
          ++ ": " ++ Error err).

(** Body of the loop over the matches of one path, lines 148-160. *)
Definition add_match (path : string) (isGlob : bool)
  (extensions : gmap string bool) (result : gmap string bool)
  (match_ : string) : gmap string bool :=
  if isGlob && negb (has_key extensions (Ext path)) then result
  else if negb (has_key result match_) then <[match_ := true]> result
  else result.

(** The loop over [paths], lines 136-161. *)
Fixpoint collect_paths (paths : list string) (extensions : gmap string bool)
  (result : gmap string bool) : Result (gmap string bool) :=
  match paths with
  | [] => Ok result
  | path :: rest =>
      let isGlob := Contains path "*" in
      let expanded :=
        if isGlob then
          match Glob path with
          | Ok ms => Ok ms
          | Err err => Err (globError path err)
          end
        else Ok [path] in
      match expanded with
      | Err e => Err e
      | Ok matches =>
          collect_paths rest extensions
            (fold_left (add_match path isGlob extensions) matches result)
      end
  end.

Definition resolvePaths (o : RangeOracle) (paths : list string)
  (extensions : gmap string bool) : Result (gmap string bool) :=
  match collect_paths paths extensions ∅ with
  | Err e => Err e
  | Ok result => Ok (removeOverlappedPaths o result)
  end.

End Resolve.

(** ** The watcher and its construction (lines 22-66) *)

(** The channels [events] and [errors] are unbuffered; what is sent on
    them is recorded in the trace of the loop below. *)
Record watcher : Type := {
  pollInterval : Z;
  watchItems : gmap string bool;
  ignoreItems : gmap string bool;
  allowedExtensions : gmap string bool
}.

Section Construction.

Variable Glob : string -> Result (list string).
(** Package constants declared in another file of the package. *)
Variable DefaultPoolInterval : Z.
Variable DefaultExtensions : list string.

Definition NewWatcher (ow oi : RangeOracle) (pollInterval : Z)
  (watchItems ignoreItems extensions : list string) : Result watcher :=
  let pollInterval :=
    if pollInterval =? 0 then DefaultPoolInterval else pollInterval in
  let extensions :=
    if (length extensions =? 0)%nat then DefaultExtensions else extensions in
  let allowedExts :=
    fold_left (fun m ext => <["." ++ ext := true]> m) extensions
      (∅ : gmap string bool) in
  match resolvePaths Glob ow watchItems allowedExts with
  | Err err => Err err
  | Ok watchPaths =>
      match resolvePaths Glob oi ignoreItems allowedExts with
      | Err err => Err err
      | Ok ignorePaths =>
          Ok {| pollInterval := pollInterval;
                watchItems := watchPaths;
                ignoreItems := ignorePaths;
                allowedExtensions := allowedExts |}
      end
  end.

End Construction.

(** A glob expansion used in the scenarios: the directory [src] holds
    [main.go] and [notes.txt]; a pattern with a character class whose
    range is reversed, or with an unterminated bracket expression, is
    rejected. *)
Definition scenarioGlob (pattern : string) : Result (list string) :=
  if Contains pattern "[z-a]" then
    Err (Errorf "invalid character class range")
  else if Contains pattern "[" && negb (Contains pattern "]") then
    Err (Errorf "syntax error in pattern")
  else if String.eqb pattern "src/*" || String.eqb pattern "src/*.*" then
    Ok ["src/main.go"; "src/notes.txt"]
  else if String.eqb pattern "src/*.go" then Ok ["src/main.go"]
  else Ok [].

(** ** The filesystem, as [filepath.Walk] sees it *)

(** [os.FileInfo], as far as the scanner reads it. *)
Record FileInfo : Type := {
  IsDir : bool;
  ModTime : Z
}.

(** What is found at a path.  [Missing]: [os.Lstat] fails there (for a
    root, the path does not exist; for a listed entry, it vanished after
    the directory was read).  [File]: anything that is not a directory.
    [Dir]: a directory; [readable = false] when reading its entries
    fails.  The entries come in the order [Walk] visits them. *)
Inductive Node : Type :=
| Missing
| File (mtime : Z)
| Dir (mtime : Z) (readable : bool) (entries : Entries)
with Entries : Type :=
| ENil
| ECons (name : string) (n : Node) (rest : Entries).

Definition lstat (n : Node) : option FileInfo :=
  match n with
  | Missing => None
  | File mt => Some {| IsDir := false; ModTime := mt |}
  | Dir mt _ _ => Some {| IsDir := true; ModTime := mt |}
  end.

(** The filesystem: what is found at each root path. *)
Definition FS : Type := string -> Node.

Definition lstatError : error := Errorf "lstat: no such file or directory".
Definition readdirError : error := Errorf "open: permission denied".

(** ** The walk (package [path/filepath]) *)

(** The state a walk threads through its callback: the variable
    [fileChanged] captured by the closure of [scanChange], and a log of
    the paths the callback was called with (not in the program; it names
    the entries visited). *)
Record WalkState : Type := {
  fileChanged : string;
  visited : list string
}.

Definition Walker (A : Type) : Type := WalkState -> Outcome (A * WalkState).

Definition ret {A} (a : A) : Walker A := fun s => Normal (a, s).

Definition bind {A B} (m : Walker A) (k : A -> Walker B) : Walker B :=
  fun s => match m s with
           | Normal (a, s') => k a s'
           | Panic => Panic
           end.

Definition panic {A} : Walker A := fun _ => Panic.

Notation "'do' x <- m ; k" := (bind m (fun x => k))
  (at level 10, x name, m at level 100, k at level 200).

Definition is_nil (err : option error) : bool :=
  match err with None => true | Some _ => false end.

Definition is_err (err : option error) (e : error) : bool :=
  match err with None => false | Some e' => error_eqb e' e end.

Definition WalkFunc : Type :=
  string -> option FileInfo -> option error -> Walker (option error).

Section Walk.

Variable walkFn : WalkFunc.

(** [filepath.walk], called on an entry whose [Lstat] succeeded, and
    the loop over the names of a directory. *)
Fixpoint walk (path : string) (n : Node) {struct n} : Walker (option error) :=
  match n with
  | Missing => panic
  | File mt => walkFn path (lstat n) None
  | Dir mt readable entries =>
      let err := if readable then None else Some readdirError in
      do err1 <- walkFn path (lstat n) err;
      if negb (is_nil err) || negb (is_nil err1) then ret err1
      else walkEntries path entries
  end
with walkEntries (path : string) (es : Entries) {struct es}
  : Walker (option error) :=
  match es with
  | ENil => ret None
  | ECons name n rest =>
      let filename := Join path name in
      match lstat n with
      | None =>
          do err <- walkFn filename None (Some lstatError);
          if negb (is_nil err) && negb (is_err err SkipDir) then ret err
          else walkEntries path rest
      | Some fileInfo =>
          do err <- walk filename n;
          if negb (is_nil err)
             && (negb (IsDir fileInfo) || negb (is_err err SkipDir))
          then ret err
          else walkEntries path rest
      end
  end.

(** [filepath.Walk(root, fn)] *)
Definition Walk (fs : FS) (root : string) : Walker (option error) :=
  do err <- match lstat (fs root) with
            | None => walkFn root None (Some lstatError)
            | Some _ => walk root (fs root)
            end;
  if is_err err SkipDir then ret None else ret err.

End Walk.

(** ** The scanner (lines 102-131, 197-202) *)

(** [info.IsDir()] and [info.ModTime()] on a nil [info] panic. *)
Definition skipFile (info : option FileInfo) : Walker (option error) :=
  match info with
  | None => panic
  | Some i => if IsDir i then ret (Some SkipDir) else ret None
  end.

(** [dir[0]] *)
Definition first_byte (s : string) : Walker ascii :=
  match s with
  | String c _ => ret c
  | EmptyString => panic
  end.

Definition log_visit (path : string) : Walker unit :=
  fun s => Normal (tt, {| fileChanged := fileChanged s;
                          visited := visited s ++ [path] |}).

Definition set_fileChanged (path : string) : Walker unit :=
  fun s => Normal (tt, {| fileChanged := path; visited := visited s |}).

(** [t.After(u)] *)
Definition After (t u : Z) : bool := u <? t.

(** The closure passed to [filepath.Walk], lines 107-124. *)
Definition scanVisit (w : watcher) (startTime : Z) : WalkFunc :=
  fun path info err =>
    do _ <- log_visit path;
    let dir := Base path in
    do c <- first_byte dir;
    if Ascii.eqb c dot && negb (String.eqb dir ".") then skipFile info
    else if has_key (ignoreItems w) path then skipFile info
    else
      let ext := Ext path in
      if has_key (allowedExtensions w) ext then
        match info with
        | None => panic
        | Some i =>
            if After (ModTime i) startTime then
              do _ <- set_fileChanged path;
              ret (Some errDetectedChange)
            else ret None
        end
      else ret None.

Definition initialWalk : WalkState := {| fileChanged := ""; visited := [] |}.

(** The walk of [scanChange], with the state it ends in. *)
Definition scanWalk (w : watcher) (fs : FS) (startTime : Z) (watchPath : string)
  : Outcome (option error * WalkState) :=
  Walk (scanVisit w startTime) fs watchPath initialWalk.

(** [w.scanChange(watchPath)], reading the package variable [startTime]. *)
Definition scanChange (w : watcher) (fs : FS) (startTime : Z) (watchPath : string)
  : Outcome (string * option error) :=
  match scanWalk w fs startTime watchPath with
  | Panic => Panic
  | Normal (err, s) =>
      if negb (is_nil err) && negb (is_err err errDetectedChange)
      then Normal ("", err)
      else Normal (fileChanged s, None)
  end.

(** The entries the callback was called with during that walk. *)
Definition scanVisited (w : watcher) (fs : FS) (startTime : Z) (watchPath : string)
  : list string :=
  match scanWalk w fs startTime watchPath with
  | Panic => []
  | Normal (_, s) => visited s
  end.

(** ** The watch loop (lines 68-89) *)

(** What the loop does, in order: a call of [scanChange] with the value
    of [startTime] it read and the result it returned, a send on the
    channel [events], a send on the channel [errors], an assignment to
    [startTime], a sleep. *)
Inductive Action : Type :=
| Scanned (watchPath : string) (baseline : Z)
          (result : Outcome (string * option error))
| SendEvent (path : string)
| SendError (err : error)
| SetStartTime (now : Z)
| Sleep (d : Z).

(** What the loop meets while it runs: the result of its [k]-th call of
    [scanChange] (a function of the filesystem at that moment), the value
    of [time.Now()] after that call, and the order in which the [range] of
    its [c]-th cycle visits the keys of [watchItems]. *)
Record World : Type := {
  scanAt : nat -> watcher -> Z -> string -> Outcome (string * option error);
  nowAt : nat -> Z;
  rangeAt : nat -> list string -> list string
}.

(** The world in which the filesystem at the [k]-th scan is [fsAt k]. *)
Definition fsWorld (fsAt : nat -> FS) (now : nat -> Z)
  (range : nat -> list string -> list string) : World :=
  {| scanAt := fun k w t watchPath => scanChange w (fsAt k) t watchPath;
     nowAt := now;
     rangeAt := range |}.

(** The state of the program around the loop: the package variable
    [startTime] (line 68), shared by every watcher of the process; the
    number of scans made so far; the actions so far. *)
Record LoopState : Type := {
  startTime : Z;
  scans : nat;
  trace : list Action
}.

Inductive Status : Type :=
| Running      (* still in the loop *)
| Stopped      (* [Watch] has returned *)
| Crashed.     (* a scan panicked *)

Definition wrap64 (z : Z) : Z := (z + 2 ^ 63) mod 2 ^ 64 - 2 ^ 63.

(** [time.Duration(w.pollInterval) * time.Millisecond], in nanoseconds. *)
Definition sleepDuration (w : watcher) : Z := wrap64 (pollInterval w * 1000000).

Section Loop.

Variable W : World.

(** Body of the inner loop for one root, lines 75-84.  A send on an
    unbuffered channel returns once the consumer has received. *)
Definition watchRoot (w : watcher) (watchPath : string) (st : LoopState)
  : LoopState * Status :=
  let k := scans st in
  let result := scanAt W k w (startTime st) watchPath in
  let tr := (trace st ++ [Scanned watchPath (startTime st) result])%list in
  match result with
  | Panic =>
      ({| startTime := startTime st; scans := S k; trace := tr |}, Crashed)
  | Normal (fileChanged, Some err) =>
      ({| startTime := startTime st; scans := S k;
          trace := (tr ++ [SendError err])%list |}, Stopped)
  | Normal (fileChanged, None) =>
      if negb (String.eqb fileChanged "") then
        ({| startTime := nowAt W k; scans := S k;
            trace := (tr ++ [SendEvent fileChanged;
                             SetStartTime (nowAt W k)])%list |}, Running)
      else
        ({| startTime := startTime st; scans := S k; trace := tr |}, Running)
  end.

(** The inner loop, lines 74-85, over the roots in the order of this
    cycle. *)
Fixpoint watchRoots (w : watcher) (roots : list string) (st : LoopState)
  : LoopState * Status :=
  match roots with
  | [] => (st, Running)
  | watchPath :: rest =>
      match watchRoot w watchPath st with
      | (st', Running) => watchRoots w rest st'
      | stop => stop
      end
  end.

(** The [c]-th cycle of the outer loop, without its sleep. *)
Definition watchCycle (c : nat) (w : watcher) (st : LoopState)
  : LoopState * Status :=
  watchRoots w (rangeAt W c (keys (watchItems w))) st.

Definition slept (w : watcher) (st : LoopState) : LoopState :=
  {| startTime := startTime st; scans := scans st;
     trace := (trace st ++ [Sleep (sleepDuration w)])%list |}.

(** [n] cycles of the outer loop, from cycle [c] on. *)
Fixpoint watchFrom (n c : nat) (w : watcher) (st : LoopState)
  : LoopState * Status :=
  match n with
  | O => (st, Running)
  | S n' =>
      match watchCycle c w st with
      | (st', Running) => watchFrom n' (S c) w (slept w st')
      | stop => stop
      end
  end.

(** [w.Watch()], observed when it has returned or crashed, or else
    after [n] cycles. *)
Definition Watch (n : nat) (w : watcher) (st : LoopState)
  : LoopState * Status :=
  watchFrom n 0 w st.

End Loop.

(** The state of a program that starts with [startTime] set to [t0]. *)
Definition programStart (t0 : Z) : LoopState :=
  {| startTime := t0; scans := 0; trace := [] |}.

Definition events_of (tr : list Action) : list string :=
  omap (fun a => match a with SendEvent p => Some p | _ => None end) tr.

Definition errors_of (tr : list Action) : list error :=
  omap (fun a => match a with SendError e => Some e | _ => None end) tr.

Definition scanned_of (tr : list Action) : list string :=
  omap (fun a => match a with Scanned p _ _ => Some p | _ => None end) tr.

(** The paths reported by the scans of a trace: the results that [Watch]
    takes for a change (no error, [fileChanged] not empty). *)
Definition reported (a : Action) : option string :=
  match a with
  | Scanned _ _ (Normal (p, None)) => if String.eqb p "" then None else Some p
  | _ => None
  end.

Definition reports_of (tr : list Action) : list string := omap reported tr.

(** An action that has nothing to do with an error. *)
Definition calm (a : Action) : bool :=
  match a with
  | SendError _ => false
  | Scanned _ _ (Normal (_, Some _)) => false
  | _ => true
  end.

(** A trace that ends with a scan returning an error and the delivery of
    that error, with no error before. *)
Definition ends_in_error (tr : list Action) : Prop :=
  exists pre root b f e,
    tr = (pre ++ [Scanned root b (Normal (f, Some e)); SendError e])%list
    /\ Forall (fun a => calm a = true) pre.

Definition trace_shape (status : Status) (tr : list Action) : Prop :=
  match status with
  | Stopped => ends_in_error tr
  | _ => Forall (fun a => calm a = true) tr
  end.

(** ** A project used in the scenarios

    [/root/proj] holds a hidden directory, a log file, a directory [sub],
    a directory named [sub.go] that cannot be read, and two Go files. *)

Definition scenarioWatcher (ignore : list string) : watcher :=
  {| pollInterval := 500;
     watchItems := {["/root/proj" := true]};
     ignoreItems := list_to_map ((fun p => (p, true)) <$> ignore);
     allowedExtensions := {[".go" := true]} |}.

Definition scenarioTree : Node :=
  Dir 1 true
    (ECons ".git" (Dir 9 true (ECons "x.go" (File 9) ENil))
    (ECons "a.log" (File 9)
    (ECons "sub" (Dir 9 true (ECons "y.go" (File 9) ENil))
    (ECons "sub.go" (Dir 2 false ENil)
    (ECons "x.go" (File 7)
    (ECons "z.go" (File 8) ENil)))))).

Definition scenarioFS : FS :=
  fun p => if String.eqb p "/root/proj" then scenarioTree else Missing.

(** ** Two watched roots used in the scenarios

    [/a] holds [x.go], written at time 5; [/b] holds [y.go], written at
    the time given. *)

Definition twoRootsFS (yTime : Z) : FS :=
  fun p =>
    if String.eqb p "/a" then Dir 1 true (ECons "x.go" (File 5) ENil)
    else if String.eqb p "/b" then Dir 1 true (ECons "y.go" (File yTime) ENil)
    else Missing.

Definition rootsWatcher (roots : list string) : watcher :=
  {| pollInterval := 500;
     watchItems := list_to_map ((fun p => (p, true)) <$> roots);
     ignoreItems := ∅;
     allowedExtensions := {[".go" := true]} |}.

(** [y.go] is written at time 20, while the event for [x.go] is being
    delivered; that delivery ends at time 10, the next one at time 30. *)
Definition busyWorld : World :=
  fsWorld (fun k => twoRootsFS (match k with O => 1 | _ => 20 end))
          (fun k => match k with O => 10 | _ => 30 end)
          (fun _ l => l).

(** Nothing changes on disk; every delivery ends at time 10. *)
Definition stillWorld : World :=
  fsWorld (fun _ => twoRootsFS 7) (fun _ => 10) (fun _ l => l).

(** A world whose second scan fails. *)
Definition failingWorld : World :=
  {| scanAt := fun k _ _ _ =>
                 match k with
                 | 1%nat => Normal ("", Some (Errorf "permission denied"))
                 | _ => Normal ("", None)
                 end;
     nowAt := fun _ => 10;
     rangeAt := fun _ l => l |}.

(** ** Vocabulary of the properties *)

(** [p] is overlapped in the key set [K]: another member of [K] is a
    prefix of [p] (a proper prefix, the two being different strings). *)
Definition overlapped (K : gset string) (p : string) : Prop :=
  exists q, q ∈ K /\ q <> p /\ HasPrefix p q = true.

(** What the marking loops may do to the map: keys stay, a flag only goes
    from [true] to [false], and only for an overlapped key. *)
Record marks (K : gset string) (m m' : gmap string bool) : Prop := {
  marks_dom : dom m' = dom m;
  marks_keep : forall k, m !! k = Some false -> m' !! k = Some false;
  marks_sound : forall k, m' !! k = Some false ->
                          m !! k = Some false \/ overlapped K k
}.

Definition all_true (m : gmap string bool) : Prop :=
  forall k v, m !! k = Some v -> v = true.

(** What [resolvePaths] takes from one entry [path] of its input: the
    entry itself when it has no [*]; otherwise every match of the
    pattern, provided the extension of the pattern is in the filter. *)
Definition kept_from (Glob : string -> Result (list string))
  (extensions : gmap string bool) (path p : string) : Prop :=
  if Contains path "*"
  then has_key extensions (Ext path) = true
       /\ exists ms, Glob path = Ok ms /\ p ∈ ms
  else p = path.

(** The first entry, in input order, whose expansion fails. *)
Fixpoint first_failure (Glob : string -> Result (list string))
  (paths : list string) : option (string * error) :=
  match paths with
  | [] => None
  | path :: rest =>
      if Contains path "*" then
        match Glob path with
        | Err e => Some (path, e)
        | Ok _ => first_failure Glob rest
        end
      else first_failure Glob rest
  end.

(** The scanner skips a path that is hidden (its last element begins with
    a dot and is not ["."]) or that is a key of the ignore map. *)
Definition hidden (path : string) : bool :=
  match Base path with
  | String c _ => Ascii.eqb c dot && negb (String.eqb (Base path) ".")
  | EmptyString => false
  end.

Definition skipped (w : watcher) (path : string) : bool :=
  hidden path || has_key (ignoreItems w) path.

(** An entry is eligible for the timestamp check when it is not skipped
    and its extension is in the filter. *)
Definition eligible (w : watcher) (path : string) : bool :=
  negb (skipped w path) && has_key (allowedExtensions w) (Ext path).

(** What the callback does with one entry. *)
Inductive Verdict : Type :=
| Skipped     (* hidden or ignored: pruned if a directory *)
| Passed      (* not reported, the walk goes on *)
| Changed     (* reported, the walk stops *)
| Crashes.    (* nil [info] dereferenced *)

Definition verdict (w : watcher) (startTime : Z) (path : string)
  (info : option FileInfo) : Verdict :=
  if skipped w path then
    match info with None => Crashes | Some _ => Skipped end
  else if has_key (allowedExtensions w) (Ext path) then
    match info with
    | None => Crashes
    | Some i => if After (ModTime i) startTime then Changed else Passed
    end
  else Passed.

(** The order in which a walk that reports nothing calls the callback:
    pre-order, the entries of a skipped or unreadable directory left out. *)
Fixpoint traversal (w : watcher) (path : string) (n : Node)
  : list (string * option FileInfo) :=
  match n with
  | Missing => [(path, None)]
  | File _ => [(path, lstat n)]
  | Dir _ readable entries =>
      (path, lstat n)
      :: (if skipped w path || negb readable then []
          else traversalEntries w path entries)
  end
with traversalEntries (w : watcher) (path : string) (es : Entries)
  : list (string * option FileInfo) :=
  match es with
  | ENil => []
  | ECons name n rest =>
      (traversal w (Join path name) n ++ traversalEntries w path rest)%list
  end.

Definition logged (s : WalkState) (path : string) : WalkState :=
  {| fileChanged := fileChanged s; visited := (visited s ++ [path])%list |}.

Definition found (s : WalkState) (path : string) : WalkState :=
  {| fileChanged := path; visited := (visited s ++ [path])%list |}.

(** A scan of a list of entries in order, stopping at the first entry
    that is reported or that crashes; [true] when one was reported. *)
Fixpoint scanList (w : watcher) (startTime : Z)
  (l : list (string * option FileInfo)) (s : WalkState)
  : Outcome (bool * WalkState) :=
  match l with
  | [] => Normal (false, s)
  | (p, info) :: rest =>
      match verdict w startTime p info with
      | Crashes => Panic
      | Changed => Normal (true, found s p)
      | _ => scanList w startTime rest (logged s p)
      end
  end.

Scheme Node_mut := Induction for Node Sort Prop
  with Entries_mut := Induction for Entries Sort Prop.
Combined Scheme Node_Entries_ind from Node_mut, Entries_mut.

(** The result of a walk, from the scan of its traversal. *)
Definition walk_result (skip : bool) (r : Outcome (bool * WalkState))
  : Outcome (option error * WalkState) :=
  match r with
  | Panic => Panic
  | Normal (true, s') => Normal (Some errDetectedChange, s')
  | Normal (false, s') => Normal (if skip then Some SkipDir else None, s')
  end.

(** An entry at which the scan neither stops nor crashes. *)
Definition quiet (w : watcher) (startTime : Z)
  (e : string * option FileInfo) : Prop :=
  verdict w startTime e.1 e.2 <> Changed
  /\ verdict w startTime e.1 e.2 <> Crashes.

(** [p] is a candidate of the resolution of [paths]: some entry
    contributes it. *)
Definition candidate (Glob : string -> Result (list string))
  (extensions : gmap string bool) (paths : list string) (p : string) : Prop :=
  exists path, path ∈ paths /\ kept_from Glob extensions path p.

(** The extensions [NewWatcher] works with (lines 37-39). *)
Definition effective_extensions (DefaultExtensions extensions : list string)
  : list string :=
  if (length extensions =? 0)%nat then DefaultExtensions else extensions.

(** The value of [startTime] after the actions [tr], from the value
    [cur]: that of the last assignment in [tr], if any. *)
Definition baseline_after (cur : Z) (tr : list Action) : Z :=
  fold_left (fun cur a => match a with SetStartTime now => now | _ => cur end)
    tr cur.

(** Every scan of [tr] was given the value [startTime] had at that
    point, starting from [cur]. *)
Fixpoint baselines_consistent (cur : Z) (tr : list Action) : Prop :=
  match tr with
  | [] => True
  | Scanned _ b _ :: rest => b = cur /\ baselines_consistent cur rest
  | SetStartTime now :: rest => baselines_consistent now rest
  | _ :: rest => baselines_consistent cur rest
  end.

(** The loop keeps the trace and [startTime] in step. *)
Definition in_step (t0 : Z) (st : LoopState) : Prop :=
  baselines_consistent t0 (trace st)
  /\ startTime st = baseline_after t0 (trace st).


(** * Properties *)

(** ** Strings *)

Example Ext_go : Ext "src/main.go" = ".go".
Proof. reflexivity. Qed.
Example Ext_pattern : Ext "src/*" = "" /\ Ext "src/*.*" = ".*".
Proof. split; reflexivity. Qed.
Example Ext_dir_dot : Ext "v1.2/readme" = "" /\ Ext "a/.gitignore" = ".gitignore".
Proof. split; reflexivity. Qed.
Example Base_examples :
  Base "" = "." /\ Base "///" = "/" /\ Base "a/b/" = "b"
  /\ Base "/root/proj/.git" = ".git" /\ Base "." = "." /\ Base ".." = "..".
Proof. repeat split; reflexivity. Qed.
Example Clean_examples :
  Clean "a//b/./c/.." = "a/b" /\ Clean "/../a" = "/a" /\ Clean "../../a/.." = "../.."
  /\ Clean "a/.." = "." /\ Clean "/" = "/" /\ Clean "./src/" = "src".
Proof. repeat split; reflexivity. Qed.
Example Join_examples :
  Join "/root/proj" "x.go" = "/root/proj/x.go" /\ Join "." "x.go" = "x.go"
  /\ Join "./src" "a.go" = "src/a.go" /\ Join "/" "etc" = "/etc".
Proof. repeat split; reflexivity. Qed.


Lemma append_cons (c : ascii) (s t : string) :
  String c s ++ t = String c (s ++ t).
Proof. reflexivity. Qed.

Lemma HasPrefix_refl (s : string) : HasPrefix s s = true.
Proof.
  induction s as [|c s IH]; simpl; [done|].
  by rewrite Ascii.eqb_refl, IH.
Qed.

Lemma HasPrefix_app (s p : string) :
  HasPrefix s p = true <-> exists t, s = p ++ t.
Proof.
  revert s. induction p as [|c p IH]; intros s; simpl.
  - split; [intros _; by exists s | done].
  - destruct s as [|d s].
    + split; [done | intros [t Ht]; discriminate].
    + rewrite andb_true_iff, Ascii.eqb_eq, IH. split.
      * intros [-> [t ->]]. by exists t.
      * intros [t Ht]. injection Ht as -> ->. eauto.
Qed.

Lemma HasPrefix_antisym (s p : string) :
  HasPrefix s p = true -> HasPrefix p s = true -> s = p.
Proof.
  revert s. induction p as [|c p IH]; intros [|d s]; simpl; try done.
  rewrite !andb_true_iff, !Ascii.eqb_eq.
  intros [-> H1] [_ H2]. f_equal. by apply IH.
Qed.

Lemma HasPrefix_trans (s p q : string) :
  HasPrefix s p = true -> HasPrefix p q = true -> HasPrefix s q = true.
Proof.
  rewrite !HasPrefix_app. intros [t ->] [u ->].
  exists (u ++ t). clear. induction q as [|c q IH]; [done|].
  rewrite !append_cons. by f_equal.
Qed.

(** ** Overlap removal *)

Lemma elem_of_keys (m : gmap string bool) (k : string) :
  k ∈ keys m <-> k ∈ dom m.
Proof.
  unfold keys. rewrite elem_of_dom, list_elem_of_fmap. split.
  - intros [[k' v] [-> H]]. apply elem_of_map_to_list in H. by exists v.
  - intros [v H]. exists (k, v). split; [done|]. by apply elem_of_map_to_list.
Qed.

Lemma marks_refl K m : marks K m m.
Proof. split; auto. Qed.

Lemma marks_trans K m1 m2 m3 : marks K m1 m2 -> marks K m2 m3 -> marks K m1 m3.
Proof.
  intros [D1 K1 S1] [D2 K2 S2]. split.
  - congruence.
  - auto.
  - intros k H. destruct (S2 k H) as [H'|H']; auto.
Qed.

Lemma marks_insert_false K m k :
  k ∈ dom m -> overlapped K k -> marks K m (<[k := false]> m).
Proof.
  intros Hk Ho. split.
  - rewrite dom_insert_L. apply set_eq. intros x.
    rewrite elem_of_union, elem_of_singleton.
    split; [intros [->|?]; done | auto].
  - intros k' H. destruct (decide (k = k')) as [->|Hne].
    + by rewrite lookup_insert_eq.
    + by rewrite lookup_insert_ne.
  - intros k' H. destruct (decide (k = k')) as [->|Hne]; [by right|].
    rewrite lookup_insert_ne in H; auto.
Qed.

Lemma inner_body_marks K p1 p2 m :
  dom m = K -> p1 ∈ K -> p2 ∈ K -> marks K m (overlap_inner_body p1 m p2).
Proof.
  intros HK H1 H2. unfold overlap_inner_body.
  destruct (String.eqb_spec p1 p2) as [->|Hne]; [apply marks_refl|].
  destruct (HasPrefix p2 p1) eqn:E21.
  { apply marks_insert_false; [by rewrite HK|]. exists p1. auto. }
  destruct (HasPrefix p1 p2) eqn:E12; [|apply marks_refl].
  apply marks_insert_false; [by rewrite HK|]. exists p2. auto.
Qed.

Lemma inner_loop_marks K p1 ks m :
  dom m = K -> p1 ∈ K -> (forall k, k ∈ ks -> k ∈ K) ->
  marks K m (fold_left (overlap_inner_body p1) ks m).
Proof.
  revert m. induction ks as [|a ks IH]; intros m HK H1 Hks; simpl.
  { apply marks_refl. }
  assert (Ha : marks K m (overlap_inner_body p1 m a)).
  { apply inner_body_marks; auto. apply Hks. left. }
  eapply marks_trans; [exact Ha|]. apply IH; auto.
  - rewrite (marks_dom _ _ _ Ha). done.
  - intros k Hk. apply Hks. by right.
Qed.

(** The inner loop marks [p1] once it meets a proper prefix of [p1]. *)
Lemma inner_loop_hits K p1 q ks m :
  dom m = K -> p1 ∈ K -> (forall k, k ∈ ks -> k ∈ K) ->
  q ∈ ks -> q <> p1 -> HasPrefix p1 q = true ->
  fold_left (overlap_inner_body p1) ks m !! p1 = Some false.
Proof.
  revert m. induction ks as [|a ks IH]; intros m HK H1 Hks Hq Hne Hpre.
  { by apply elem_of_nil in Hq. }
  simpl.
  assert (Ha : marks K m (overlap_inner_body p1 m a)).
  { apply inner_body_marks; auto. apply Hks. left. }
  assert (HK' : dom (overlap_inner_body p1 m a) = K).
  { by rewrite (marks_dom _ _ _ Ha). }
  assert (Hks' : forall k, k ∈ ks -> k ∈ K).
  { intros k Hk. apply Hks. by right. }
  apply elem_of_cons in Hq as [->|Hq]; [|by apply IH].
  apply (marks_keep _ _ _ (inner_loop_marks K p1 ks _ HK' H1 Hks')).
  unfold overlap_inner_body.
  destruct (String.eqb_spec p1 a) as [->|_]; [done|].
  destruct (HasPrefix a p1) eqn:E.
  { exfalso. apply Hne. symmetry. by apply HasPrefix_antisym. }
  rewrite Hpre. apply lookup_insert_eq.
Qed.

Lemma outer_body_marks o K p1 m :
  valid_oracle o -> dom m = K -> p1 ∈ K ->
  marks K m (overlap_outer_body o m p1).
Proof.
  intros (_ & Hin & _) HK H1. unfold overlap_outer_body.
  assert (Hks : forall k, k ∈ inner_order o p1 (keys m) -> k ∈ K).
  { intros k. rewrite Hin, elem_of_keys, HK. done. }
  destruct (m !! p1) as [[|]|]; try apply marks_refl;
    by apply inner_loop_marks.
Qed.

Lemma outer_body_hits o K p1 m :
  valid_oracle o -> dom m = K -> p1 ∈ K -> overlapped K p1 ->
  overlap_outer_body o m p1 !! p1 = Some false.
Proof.
  intros (_ & Hin & _) HK H1 (q & Hq & Hne & Hpre). unfold overlap_outer_body.
  assert (Hks : forall k, k ∈ inner_order o p1 (keys m) -> k ∈ K).
  { intros k. rewrite Hin, elem_of_keys, HK. done. }
  assert (Hq' : q ∈ inner_order o p1 (keys m)).
  { rewrite Hin, elem_of_keys, HK. done. }
  destruct (m !! p1) as [[|]|] eqn:E; [|done|];
    by apply (inner_loop_hits K p1 q).
Qed.

Lemma outer_loop_marks o K ks m :
  valid_oracle o -> dom m = K -> (forall k, k ∈ ks -> k ∈ K) ->
  marks K m (fold_left (overlap_outer_body o) ks m)
  /\ (forall p, p ∈ ks -> overlapped K p ->
       fold_left (overlap_outer_body o) ks m !! p = Some false).
Proof.
  intros Hv. revert m. induction ks as [|a ks IH]; intros m HK Hks; simpl.
  { split; [apply marks_refl|]. intros p Hp. by apply elem_of_nil in Hp. }
  assert (HaK : a ∈ K) by (apply Hks; left).
  assert (Ha : marks K m (overlap_outer_body o m a)).
  { by apply outer_body_marks. }
  assert (HK' : dom (overlap_outer_body o m a) = K).
  { by rewrite (marks_dom _ _ _ Ha). }
  assert (Hks' : forall k, k ∈ ks -> k ∈ K).
  { intros k Hk. apply Hks. by right. }
  destruct (IH _ HK' Hks') as [IH1 IH2]. split.
  { eapply marks_trans; eauto. }
  intros p Hp Ho. apply elem_of_cons in Hp as [->|Hp]; [|by apply IH2].
  apply (marks_keep _ _ _ IH1). by apply (outer_body_hits o K).
Qed.

Lemma cleanup_lookup ks m p :
  fold_left cleanup_body ks m !! p =
  if bool_decide (p ∈ ks)
  then (if index_or_zero m p then m !! p else None)
  else m !! p.
Proof.
  revert m. induction ks as [|a ks IH]; intros m; cbn [fold_left].
  { rewrite bool_decide_eq_false_2; [done|]. apply not_elem_of_nil. }
  rewrite IH. clear IH. unfold cleanup_body, index_or_zero.
  destruct (decide (p = a)) as [->|Hne].
  - rewrite (bool_decide_eq_true_2 (a ∈ a :: ks)) by left.
    destruct (m !! a) as [[|]|] eqn:E; simpl; rewrite ?E; simpl;
      rewrite ?lookup_delete_eq; simpl; by repeat case_bool_decide.
  - assert (Hiff : p ∈ a :: ks <-> p ∈ ks).
    { rewrite elem_of_cons. split; [intros [?|?]; done | by right]. }
    rewrite (bool_decide_ext _ _ Hiff).
    destruct (negb (default false (m !! a))); [|done].
    by rewrite lookup_delete_ne.
Qed.

(** The result of overlap removal, whatever the order of the loops: the
    keys flagged [true] that no other key of the map is a prefix of. *)
Lemma removeOverlappedPaths_lookup o m p v :
  valid_oracle o ->
  removeOverlappedPaths o m !! p = Some v <->
  v = true /\ m !! p = Some true /\ ~ overlapped (dom m) p.
Proof.
  intros Hv. pose proof Hv as (Hout & _ & Hcl).
  unfold removeOverlappedPaths.
  set (ks := outer_order o (keys m)).
  assert (Hks : forall k, k ∈ ks <-> k ∈ dom m).
  { intros k. unfold ks. by rewrite Hout, elem_of_keys. }
  destruct (outer_loop_marks o (dom m) ks m Hv eq_refl) as [Hm Hhit].
  { intros k. apply Hks. }
  set (marked := fold_left (overlap_outer_body o) ks m) in *.
  rewrite cleanup_lookup.
  assert (Hin : p ∈ cleanup_order o (keys marked) <-> p ∈ dom m).
  { by rewrite Hcl, elem_of_keys, (marks_dom _ _ _ Hm). }
  unfold index_or_zero. split.
  - intros H. case_bool_decide as Hp.
    + destruct (marked !! p) as [[|]|] eqn:E; simpl in H; try done.
      injection H as <-. split; [done|].
      assert (Hd : p ∈ dom m) by (by apply Hin).
      destruct (proj1 (elem_of_dom m p) Hd) as [b Hb]. split.
      * destruct b; [done|]. apply (marks_keep _ _ _ Hm) in Hb. congruence.
      * intros Ho. rewrite Hhit in E; [done| by apply Hks | done].
    + exfalso. apply Hp, Hin. rewrite <- (marks_dom _ _ _ Hm).
      apply elem_of_dom. eauto.
  - intros (-> & Hp & Hno).
    case_bool_decide as Hc.
    2:{ exfalso. apply Hc, Hin, elem_of_dom. eauto. }
    assert (Hd : p ∈ dom marked).
    { rewrite (marks_dom _ _ _ Hm). apply elem_of_dom. eauto. }
    apply elem_of_dom in Hd as [b Hb]. rewrite Hb. simpl.
    destruct b; [done|].
    destruct (marks_sound _ _ _ Hm p Hb); [congruence|done].
Qed.

Lemma removeOverlappedPaths_order o1 o2 m :
  valid_oracle o1 -> valid_oracle o2 ->
  removeOverlappedPaths o1 m = removeOverlappedPaths o2 m.
Proof.
  intros H1 H2. apply map_eq. intros p. apply option_eq. intros v.
  by rewrite !removeOverlappedPaths_lookup.
Qed.

Lemma canonical_oracle_valid : valid_oracle canonical_oracle.
Proof. by repeat split. Qed.

Lemma reverse_oracle_valid : valid_oracle reverse_oracle.
Proof.
  repeat split; intros; simpl; symmetry; apply Permutation_rev.
Qed.

(** ** Path resolution *)

Section ResolveFacts.

Variable Glob : string -> Result (list string).
Variable extensions : gmap string bool.

Lemma add_match_fold_dom path isGlob matches result p :
  p ∈ dom (fold_left (add_match path isGlob extensions) matches result) <->
  p ∈ dom result
  \/ (isGlob && negb (has_key extensions (Ext path)) = false /\ p ∈ matches).
Proof.
  revert result. induction matches as [|a ms IH]; intros result; simpl.
  { split; [auto|]. intros [H|[_ H]]; [done|]. by apply elem_of_nil in H. }
  rewrite IH. clear IH. unfold add_match.
  destruct (isGlob && negb (has_key extensions (Ext path))) eqn:E.
  { split; (intros [H|[? _]]; [auto | done]). }
  unfold has_key. rewrite elem_of_cons.
  case_bool_decide as Ha; simpl.
  - apply elem_of_dom in Ha.
    split; [intros [?|[? ?]]; auto|].
    intros [?|[_ [->|?]]]; auto.
  - rewrite dom_insert_L, elem_of_union, elem_of_singleton.
    split; [intros [[->|?]|[? ?]]; auto|].
    intros [?|[_ [->|?]]]; auto.
Qed.

Lemma add_match_fold_true path isGlob matches result :
  all_true result ->
  all_true (fold_left (add_match path isGlob extensions) matches result).
Proof.
  revert result. induction matches as [|a ms IH]; intros result Ht; simpl.
  { done. }
  apply IH. unfold add_match.
  destruct (isGlob && negb (has_key extensions (Ext path))); [done|].
  destruct (negb (has_key result a)); [|done].
  intros k v. destruct (decide (a = k)) as [->|Hne].
  - rewrite lookup_insert_eq. congruence.
  - rewrite lookup_insert_ne by done. apply Ht.
Qed.

Lemma collect_paths_dom paths result R p :
  collect_paths Glob paths extensions result = Ok R ->
  p ∈ dom R <->
  p ∈ dom result \/ exists path, path ∈ paths /\ kept_from Glob extensions path p.
Proof.
  revert result. induction paths as [|a ps IH]; intros result; simpl.
  { intros [= <-]. split; [auto|]. intros [?|(x & Hx & _)]; [done|].
    by apply elem_of_nil in Hx. }
  assert (Hcase : forall ms g,
    collect_paths Glob ps extensions
      (fold_left (add_match a g extensions) ms result) = Ok R ->
    (forall q, (g && negb (has_key extensions (Ext a)) = false /\ q ∈ ms)
               <-> kept_from Glob extensions a q) ->
    p ∈ dom R <->
    p ∈ dom result \/ exists path, path ∈ a :: ps /\ kept_from Glob extensions path p).
  { intros ms g HR Hk. rewrite (IH _ HR), add_match_fold_dom, Hk.
    split.
    - intros [[?|?]|(x & Hx & ?)]; [auto| |].
      + right. exists a. split; [left|done].
      + right. exists x. split; [by right|done].
    - intros [?|(x & Hx & ?)]; [auto|].
      apply elem_of_cons in Hx as [->|Hx]; [auto|]. right. eauto. }
  unfold kept_from in Hcase at 1.
  destruct (Contains a "*") eqn:Eg.
  - destruct (Glob a) as [ms|e] eqn:EG; [|done].
    intros HR. apply (Hcase ms true HR). intros q. simpl.
    rewrite negb_false_iff. split.
    + intros [? ?]. eauto.
    + intros [? (ms' & [= <-] & ?)]. auto.
  - intros HR. apply (Hcase [a] false HR). intros q. simpl.
    rewrite list_elem_of_singleton. split; [by intros [_ ?]|auto].
Qed.

Lemma collect_paths_true paths result R :
  collect_paths Glob paths extensions result = Ok R ->
  all_true result -> all_true R.
Proof.
  revert result. induction paths as [|a ps IH]; intros result; simpl.
  { by intros [= <-]. }
  destruct (Contains a "*").
  - destruct (Glob a) as [ms|e]; [|done].
    intros HR Ht. apply (IH _ HR). by apply add_match_fold_true.
  - intros HR Ht. apply (IH _ HR). by apply add_match_fold_true.
Qed.

(** Resolution fails exactly when some entry with a [*] fails to expand,
    and then with the error of the first such entry. *)
Lemma collect_paths_failure paths result :
  match first_failure Glob paths with
  | Some (path, e) =>
      collect_paths Glob paths extensions result = Err (globError path e)
  | None => exists R, collect_paths Glob paths extensions result = Ok R
  end.
Proof.
  revert result. induction paths as [|a ps IH]; intros result; simpl.
  { eauto. }
  destruct (Contains a "*").
  - destruct (Glob a) as [ms|e]; [apply IH|done].
  - apply IH.
Qed.

Lemma first_failure_some paths p e :
  p ∈ paths -> Contains p "*" = true -> Glob p = Err e ->
  exists q e', first_failure Glob paths = Some (q, e').
Proof.
  induction paths as [|a ps IH]; intros Hp Hg He.
  { by apply elem_of_nil in Hp. }
  simpl. apply elem_of_cons in Hp as [<-|Hp].
  - rewrite Hg, He. eauto.
  - destruct (Contains a "*"); [destruct (Glob a)|]; eauto.
Qed.

Lemma first_failure_first paths q e :
  first_failure Glob paths = Some (q, e) ->
  exists pre post,
    paths = (pre ++ q :: post)%list
    /\ Contains q "*" = true /\ Glob q = Err e
    /\ forall x, x ∈ pre -> Contains x "*" = true ->
                  exists ms, Glob x = Ok ms.
Proof.
  induction paths as [|a ps IH]; simpl; [done|].
  destruct (Contains a "*") eqn:Eg.
  - destruct (Glob a) as [ms|e0] eqn:EG.
    + intros H. destruct (IH H) as (pre & post & -> & ? & ? & Hpre).
      exists (a :: pre), post. repeat split; auto.
      intros x Hx Hxg. apply elem_of_cons in Hx as [->|Hx]; eauto.
    + intros [= -> ->]. exists [], ps. repeat split; auto.
      intros x Hx. by apply elem_of_nil in Hx.
  - intros H. destruct (IH H) as (pre & post & -> & ? & ? & Hpre).
    exists (a :: pre), post. repeat split; auto.
    intros x Hx Hxg. apply elem_of_cons in Hx as [->|Hx]; [congruence|eauto].
Qed.

End ResolveFacts.

(** ** The scanner *)

Lemma Base_nonempty (path : string) : Base path <> "".
Proof.
  unfold Base. destruct path as [|c path]; [done|].
  destruct (take_elem _ _); done.
Qed.

Section Scanner.

Variable w : watcher.
Variable startTime : Z.

(** The callback, entry by entry. *)
Lemma scanVisit_verdict path info err s :
  scanVisit w startTime path info err s =
  match verdict w startTime path info with
  | Crashes => Panic
  | Changed => Normal (Some errDetectedChange, found s path)
  | Passed => Normal (None, logged s path)
  | Skipped =>
      Normal (if default false (IsDir <$> info) then Some SkipDir else None,
              logged s path)
  end.
Proof.
  unfold scanVisit, verdict, skipped, hidden, bind, log_visit.
  fold (logged s path).
  pose proof (Base_nonempty path) as Hb.
  destruct (Base path) as [|c b] eqn:EB; [done|].
  cbv beta iota delta [first_byte ret].
  generalize (Ascii.eqb c dot && negb (String.eqb (String c b) ".")).
  intros [|]; cbn [orb].
  { destruct info as [[[|] mt]|]; reflexivity. }
  destruct (has_key (ignoreItems w) path).
  { destruct info as [[[|] mt]|]; reflexivity. }
  destruct (has_key (allowedExtensions w) (Ext path)); [|reflexivity].
  destruct info as [i|]; [|reflexivity].
  destruct (After (ModTime i) startTime); reflexivity.
Qed.

Lemma scanList_app l1 l2 s :
  scanList w startTime (l1 ++ l2) s =
  match scanList w startTime l1 s with
  | Normal (false, s') => scanList w startTime l2 s'
  | r => r
  end.
Proof.
  revert s. induction l1 as [|[p info] l1 IH]; intros s; simpl; [done|].
  destruct (verdict w startTime p info); auto.
Qed.

Lemma walk_scanList :
  (forall n path s, lstat n <> None ->
     walk (scanVisit w startTime) path n s =
     walk_result (default false (IsDir <$> lstat n) && skipped w path)
       (scanList w startTime (traversal w path n) s))
  /\ (forall es path s,
        walkEntries (scanVisit w startTime) path es s =
        walk_result false
          (scanList w startTime (traversalEntries w path es) s)).
Proof.
  apply Node_Entries_ind.
  - done.
  - intros mt path s _. simpl. rewrite scanVisit_verdict.
    unfold verdict. destruct (skipped w path); simpl; [done|].
    destruct (has_key _ _); [|done]. by destruct (After mt startTime).
  - intros mt readable es IH path s _.
    cbn [walk traversal scanList lstat]. unfold bind.
    rewrite scanVisit_verdict. unfold verdict.
    destruct (skipped w path) eqn:Es; simpl.
    { by destruct readable. }
    assert (Hrest : (if negb (is_nil (if readable then None else Some readdirError))
                        || negb (is_nil None)
                     then ret None
                     else walkEntries (scanVisit w startTime) path es)
                      (logged s path)
                    = walk_result false
                        (scanList w startTime
                           (if negb readable then []
                            else traversalEntries w path es)
                           (logged s path))).
    { destruct readable; simpl; [apply IH | done]. }
    destruct (has_key _ _); [|exact Hrest].
    destruct (After mt startTime); [by destruct readable|exact Hrest].
  - done.
  - intros name n IHn rest IHrest path s.
    cbn [walkEntries traversalEntries]. rewrite scanList_app.
    destruct (lstat n) as [fileInfo|] eqn:El.
    + unfold bind. rewrite IHn by done. simpl.
      destruct (scanList w startTime (traversal w (Join path name) n) s)
        as [[[|] s']|]; simpl; [by rewrite orb_true_r | | done].
      destruct (IsDir fileInfo && skipped w (Join path name)) eqn:E; simpl.
      * apply andb_true_iff in E as [-> _]. simpl. apply IHrest.
      * apply IHrest.
    + destruct n; try done. simpl. unfold bind.
      rewrite scanVisit_verdict. unfold verdict.
      destruct (skipped w (Join path name)); simpl; [done|].
      destruct (has_key _ _); simpl; [done|]. apply IHrest.
Qed.

Lemma scanWalk_scanList fs root :
  scanWalk w fs startTime root =
  walk_result false
    (scanList w startTime (traversal w root (fs root)) initialWalk).
Proof.
  unfold scanWalk, Walk, bind.
  destruct (lstat (fs root)) as [i|] eqn:El.
  - rewrite (proj1 walk_scanList) by congruence.
    destruct (scanList _ _ _ _) as [[[|] s']|]; simpl; [done| |done].
    by destruct (_ && _).
  - destruct (fs root); try done. simpl.
    rewrite scanVisit_verdict. unfold verdict.
    destruct (skipped w root); [done|].
    by destruct (has_key _ _).
Qed.

Lemma scanChange_scanList fs root :
  scanChange w fs startTime root =
  match scanList w startTime (traversal w root (fs root)) initialWalk with
  | Panic => Panic
  | Normal (_, s') => Normal (fileChanged s', None)
  end.
Proof.
  unfold scanChange. rewrite scanWalk_scanList.
  by destruct (scanList _ _ _ _) as [[[|] s']|].
Qed.

Lemma scanVisited_scanList fs root :
  scanVisited w fs startTime root =
  match scanList w startTime (traversal w root (fs root)) initialWalk with
  | Panic => []
  | Normal (_, s') => visited s'
  end.
Proof.
  unfold scanVisited. rewrite scanWalk_scanList.
  by destruct (scanList _ _ _ _) as [[[|] s']|].
Qed.

(** The scanner never returns an error: every failure of the walk goes
    through the callback, which ignores it. *)
Lemma scanChange_no_error fs root p e :
  scanChange w fs startTime root <> Normal (p, Some e).
Proof.
  rewrite scanChange_scanList.
  by destruct (scanList _ _ _ _) as [[[|] s']|].
Qed.

Lemma scanList_quiet l s :
  (forall e, e ∈ l -> quiet w startTime e) ->
  scanList w startTime l s =
  Normal (false, {| fileChanged := fileChanged s;
                    visited := (visited s ++ l.*1)%list |}).
Proof.
  revert s. induction l as [|[q j] l IH]; intros s Hq; simpl.
  { rewrite app_nil_r. by destruct s. }
  assert (Hqj : quiet w startTime (q, j)) by (apply Hq; left).
  assert (Hl : forall e, e ∈ l -> quiet w startTime e) by (intros e ?; apply Hq; by right).
  destruct Hqj as [H1 H2]. simpl in H1, H2.
  destruct (verdict w startTime q j); try done;
    rewrite (IH _ Hl); simpl; by rewrite <- app_assoc.
Qed.


Lemma quiet_nil e : e ∈ [] -> quiet w startTime e.
Proof. intros He. by apply elem_of_nil in He. Qed.

Lemma quiet_cons q j l :
  verdict w startTime q j <> Changed ->
  verdict w startTime q j <> Crashes ->
  (forall e, e ∈ l -> quiet w startTime e) ->
  forall e, e ∈ (q, j) :: l -> quiet w startTime e.
Proof.
  intros H1 H2 Hl e He. apply elem_of_cons in He as [->|He]; [|by apply Hl].
  by split.
Qed.

Lemma scanList_inv l s b s' :
  scanList w startTime l s = Normal (b, s') ->
  if b then
    exists pre p info post,
      l = (pre ++ (p, info) :: post)%list
      /\ (forall e, e ∈ pre -> quiet w startTime e)
      /\ verdict w startTime p info = Changed
      /\ s' = {| fileChanged := p;
                 visited := (visited s ++ pre.*1 ++ [p])%list |}
  else
    (forall e, e ∈ l -> quiet w startTime e)
    /\ s' = {| fileChanged := fileChanged s;
               visited := (visited s ++ l.*1)%list |}.
Proof.
  revert s. induction l as [|[q j] l IH]; intros s; simpl.
  { intros [= <- <-]. split; [apply quiet_nil|].
    rewrite app_nil_r. by destruct s. }
  assert (Hstep : verdict w startTime q j <> Changed ->
                  verdict w startTime q j <> Crashes ->
                  scanList w startTime l (logged s q) = Normal (b, s') ->
                  if b then
                    exists pre p info post,
                      (q, j) :: l = (pre ++ (p, info) :: post)%list
                      /\ (forall e, e ∈ pre -> quiet w startTime e)
                      /\ verdict w startTime p info = Changed
                      /\ s' = {| fileChanged := p;
                                 visited := (visited s ++ pre.*1 ++ [p])%list |}
                  else
                    (forall e, e ∈ (q, j) :: l -> quiet w startTime e)
                    /\ s' = {| fileChanged := fileChanged s;
                               visited := (visited s ++ q :: l.*1)%list |}).
  { intros H1 H2 H. specialize (IH _ H). destruct b.
    - destruct IH as (pre & p & info & post & -> & Hq & Hv & ->).
      exists ((q, j) :: pre), p, info, post.
      split; [done|]. split; [by apply quiet_cons|]. split; [done|].
      simpl. by rewrite <- app_assoc.
    - destruct IH as [Hq ->]. split; [by apply quiet_cons|].
      simpl. by rewrite <- app_assoc. }
  destruct (verdict w startTime q j) eqn:Ev; try done;
    try (by apply Hstep).
  intros [= <- <-]. exists [], q, j, l.
  split; [done|]. split; [apply quiet_nil|]. split; [done|]. done.
Qed.

Lemma verdict_Changed path info :
  verdict w startTime path info = Changed <->
  eligible w path = true
  /\ exists i, info = Some i /\ startTime < ModTime i.
Proof.
  unfold verdict, eligible, After.
  destruct (skipped w path); simpl.
  { split; [by destruct info | by intros [? _]]. }
  destruct (has_key _ _); simpl; [|split; [done | by intros [? _]]].
  destruct info as [i|]; [|split; [done | by intros [_ (? & ? & _)]]].
  destruct (Z.ltb_spec startTime (ModTime i)).
  - split; [eauto | done].
  - split; [done|]. intros [_ (i' & [= <-] & ?)]. lia.
Qed.

End Scanner.

(** Scenario A: a Go file written after the baseline is returned. *)
Example scenario_A :
  scanChange (scenarioWatcher ["/root/proj/sub"]) scenarioFS 5 "/root/proj"
  = Normal ("/root/proj/x.go", None).
Proof. vm_compute. reflexivity. Qed.

(** Scenarios B, C and E: the log file, the Go file under the hidden
    directory and the Go file under the ignored directory, all written at
    time 9, are not reported with the baseline at 8. *)
Example scenario_B_C_E :
  scanChange (scenarioWatcher ["/root/proj/sub"]) scenarioFS 8 "/root/proj"
  = Normal ("", None)
  /\ scanVisited (scenarioWatcher ["/root/proj/sub"]) scenarioFS 8 "/root/proj"
     = ["/root/proj"; "/root/proj/.git"; "/root/proj/a.log"; "/root/proj/sub";
        "/root/proj/sub.go"; "/root/proj/x.go"; "/root/proj/z.go"].
Proof. vm_compute. split; reflexivity. Qed.

(** Without the ignore entry, the file under [sub] is reported. *)
Example scenario_E_not_ignored :
  scanChange (scenarioWatcher []) scenarioFS 8 "/root/proj"
  = Normal ("/root/proj/sub/y.go", None).
Proof. vm_compute. reflexivity. Qed.

(** A root that does not exist: nothing to report if its extension is not
    watched, a nil dereference if it is. *)
Example scenario_missing_root :
  scanChange (scenarioWatcher []) scenarioFS 8 "/root/other" = Normal ("", None)
  /\ scanChange (scenarioWatcher []) scenarioFS 8 "/root/main.go" = Panic.
Proof. vm_compute. split; reflexivity. Qed.


(** C8. An entry whose exact path is a key of the ignore map is skipped:
    a directory is pruned (the walk of it returns [SkipDir] after visiting
    the directory alone, whatever is under it, and leaves [fileChanged] as
    it was), a file is skipped alone, and in both cases the walk of the
    parent goes on with the next entry; a scan rooted at an ignored entry
    reports nothing.  Membership is by the exact path: what the callback
    does with an entry depends on the ignore map only through whether that
    entry's own path is a key of it. *)
Theorem ignored_entry_skipped (w : watcher) (t : Z) :
  (forall path,
     has_key (ignoreItems w) path = true ->
     (forall mt readable entries s,
        walk (scanVisit w t) path (Dir mt readable entries) s
        = Normal (Some SkipDir, logged s path))
     /\ (forall mt s,
          walk (scanVisit w t) path (File mt) s = Normal (None, logged s path))
     /\ (forall dir name n rest s,
          Join dir name = path -> lstat n <> None ->
          walkEntries (scanVisit w t) dir (ECons name n rest) s
          = walkEntries (scanVisit w t) dir rest (logged s path))
     /\ (forall fs,
          lstat (fs path) <> None ->
          scanChange w fs t path = Normal ("", None)
          /\ scanVisited w fs t path = [path]))
  /\ (forall w' path info err s,
       allowedExtensions w' = allowedExtensions w ->
       has_key (ignoreItems w') path = has_key (ignoreItems w) path ->
       scanVisit w' t path info err s = scanVisit w t path info err s).
Proof.
  split.
  - intros path Hig.
    assert (Hs : skipped w path = true).
    { unfold skipped. rewrite Hig. apply orb_true_r. }
    assert (Hdir : forall mt readable entries s,
      walk (scanVisit w t) path (Dir mt readable entries) s
      = Normal (Some SkipDir, logged s path)).
    { intros. cbn [walk lstat]. unfold bind. rewrite scanVisit_verdict.
      unfold verdict. rewrite Hs. simpl. by rewrite orb_true_r. }
    assert (Hfile : forall mt s,
      walk (scanVisit w t) path (File mt) s = Normal (None, logged s path)).
    { intros. cbn [walk lstat]. rewrite scanVisit_verdict.
      unfold verdict. by rewrite Hs. }
    split; [exact Hdir|]. split; [exact Hfile|]. split.
    + intros dir name n rest s HJ Hl. cbn [walkEntries]. rewrite HJ.
      destruct n as [|mt|mt readable entries]; [done| |]; cbn [lstat];
        unfold bind.
      * by rewrite Hfile.
      * by rewrite Hdir.
    + intros fs Hl. rewrite scanChange_scanList, scanVisited_scanList.
      destruct (fs path) as [|mt|mt readable entries]; [done| |];
        cbn [traversal lstat scanList]; unfold verdict; rewrite Hs; simpl;
        done.
  - intros w' path info err s Hext Hig.
    unfold scanVisit. by rewrite Hext, Hig.
Qed.

(** C10. The callback never asks whether an entry is a regular file: for
    an entry that is not hidden and not ignored, its result is the same for
    a directory and for a file.  So a directory whose extension is in the
    filter and whose modification time is strictly after the baseline is
    itself reported: the walk stops at it, and a scan rooted at it returns
    its path. *)
Theorem directory_reported_as_changed (w : watcher) (t : Z) (path : string) :
  skipped w path = false ->
  (forall isDir isDir' mt err s,
     scanVisit w t path (Some {| IsDir := isDir; ModTime := mt |}) err s
     = scanVisit w t path (Some {| IsDir := isDir'; ModTime := mt |}) err s)
  /\ (forall mt readable entries,
       has_key (allowedExtensions w) (Ext path) = true ->
       t < mt ->
       (forall s,
          walk (scanVisit w t) path (Dir mt readable entries) s
          = Normal (Some errDetectedChange, found s path))
       /\ (forall fs,
            fs path = Dir mt readable entries ->
            scanChange w fs t path = Normal (path, None)
            /\ scanVisited w fs t path = [path])).
Proof.
  intros Hs. split.
  - intros. rewrite !scanVisit_verdict. unfold verdict. rewrite Hs. simpl.
    destruct (has_key _ _); [|done]. by destruct (After mt t).
  - intros mt readable entries Hext Hmt.
    assert (Hv : verdict w t path (Some {| IsDir := true; ModTime := mt |})
                 = Changed).
    { apply verdict_Changed. split.
      - unfold eligible. by rewrite Hs, Hext.
      - eauto. }
    split.
    + intros s. cbn [walk lstat]. unfold bind. rewrite scanVisit_verdict, Hv.
      simpl. by rewrite orb_true_r.
    + intros fs Hfs. rewrite scanChange_scanList, scanVisited_scanList, Hfs.
      cbn [traversal lstat scanList]. by rewrite Hv.
Qed.

(** ** Path resolution: the claims *)

Lemma overlapped_dec (K : gset string) (p : string) :
  {overlapped K p} + {~ overlapped K p}.
Proof.
  destruct (decide (set_Exists (fun q => q <> p /\ HasPrefix p q = true) K))
    as [H|H].
  - left. destruct H as (q & ? & ? & ?). by exists q.
  - right. intros (q & ? & ? & ?). apply H. by exists q.
Qed.

(** C5. Overlap removal discards exactly the members of the candidate set
    that another member is a proper string-prefix of (of two members one
    of which is a prefix of the other, the longer is discarded; the shorter
    stays unless it has a proper prefix of its own in the set), so that in
    the result no path is a prefix of a different one.  This holds for
    every order in which the loops visit the map. *)
Theorem overlap_removal_exact (o : RangeOracle) (S : gset string) :
  valid_oracle o ->
  let R := removeOverlappedPaths o (gset_to_gmap true S) in
  (forall p, p ∈ dom R <-> p ∈ S /\ ~ overlapped S p)
  /\ (forall p, p ∈ S -> p ∉ dom R <-> overlapped S p)
  /\ (forall p q, p ∈ dom R -> q ∈ dom R -> p <> q ->
                   HasPrefix q p = false /\ HasPrefix p q = false)
  /\ all_true R.
Proof.
  intros Hv R.
  assert (Hlook : forall p v, R !! p = Some v <->
                  v = true /\ p ∈ S /\ ~ overlapped S p).
  { intros p v. unfold R. rewrite removeOverlappedPaths_lookup by done.
    rewrite lookup_gset_to_gmap_Some, dom_gset_to_gmap. tauto. }
  assert (Hdom : forall p, p ∈ dom R <-> p ∈ S /\ ~ overlapped S p).
  { intros p. rewrite elem_of_dom. split.
    - intros [v Hp]. by apply Hlook in Hp as (_ & ? & ?).
    - intros [? ?]. exists true. by apply Hlook. }
  split; [exact Hdom|]. split; [|split].
  - intros p Hp. rewrite Hdom. split.
    + intros Hn. destruct (overlapped_dec S p); [done|]. by destruct Hn.
    + intros Ho [_ Hn]. done.
  - intros p q Hp Hq Hne.
    apply Hdom in Hp as [HpS Hpo]. apply Hdom in Hq as [HqS Hqo].
    split.
    + destruct (HasPrefix q p) eqn:E; [|done].
      exfalso. apply Hqo. by exists p.
    + destruct (HasPrefix p q) eqn:E; [|done].
      exfalso. apply Hpo. exists q. auto.
  - intros p v Hp. by apply Hlook in Hp as (? & _).
Qed.

(** C9. Path resolution does not depend on the order in which the loops
    of overlap removal visit the map: for the same patterns, the same
    extension filter and the same expansion of the globs, any two runs
    give the same path set, and so do any two constructions of a watcher. *)
Theorem resolvePaths_order_independent (Glob : string -> Result (list string))
  (o1 o2 o1' o2' : RangeOracle) :
  valid_oracle o1 -> valid_oracle o2 ->
  valid_oracle o1' -> valid_oracle o2' ->
  (forall paths extensions,
     resolvePaths Glob o1 paths extensions
     = resolvePaths Glob o2 paths extensions)
  /\ (forall defaultInterval defaultExts interval watch ignore extensions,
       NewWatcher Glob defaultInterval defaultExts o1 o1' interval watch ignore
         extensions
       = NewWatcher Glob defaultInterval defaultExts o2 o2' interval watch
           ignore extensions).
Proof.
  intros H1 H2 H1' H2'.
  assert (Hr : forall o o' paths extensions,
    valid_oracle o -> valid_oracle o' ->
    resolvePaths Glob o paths extensions = resolvePaths Glob o' paths extensions).
  { intros o o' paths extensions Ho Ho'. unfold resolvePaths.
    destruct (collect_paths _ _ _ _); [|done].
    f_equal. by apply removeOverlappedPaths_order. }
  split; [intros; by apply Hr|].
  intros. unfold NewWatcher.
  rewrite (Hr o1 o2) by done.
  destruct (resolvePaths Glob o2 _ _); [|done].
  by rewrite (Hr o1' o2').
Qed.

(** Scenario D: a path under another watched path is dropped. *)
Example scenario_D :
  resolvePaths scenarioGlob reverse_oracle ["/root/proj"; "/root/proj/sub"]
    {[".go" := true]}
  = Ok {["/root/proj" := true]}.
Proof. vm_compute. reflexivity. Qed.

(** The prefix is a prefix of strings, not of path elements. *)
Example overlap_is_by_string_prefix :
  resolvePaths scenarioGlob canonical_oracle ["/root/proj"; "/root/project"]
    {[".go" := true]}
  = Ok {["/root/proj" := true]}.
Proof. vm_compute. reflexivity. Qed.

(** C1: the code at the failing inputs.  The test of line 152 reads the
    extension of the pattern, inside the loop over its matches, so every
    result of a pattern is kept or dropped together, whatever its own
    extension.  With the filter [{".go"}], the pattern [src/*] keeps
    nothing, not even [src/main.go], whose own extension is in the filter;
    with the filter [{".*"}], the pattern [src/*.*] keeps [src/main.go] and
    [src/notes.txt], whose own extensions are not in the filter.  The
    claim, a filter on each result's own extension, says the opposite in
    both cases. *)
Lemma glob_filter_reads_pattern_extension :
  (collect_paths scenarioGlob ["src/*.*"] {[".*" := true]} ∅
   = Ok {["src/main.go" := true; "src/notes.txt" := true]}
   /\ has_key {[".*" := true]} (Ext "src/main.go") = false
   /\ has_key {[".*" := true]} (Ext "src/notes.txt") = false)
  /\ (collect_paths scenarioGlob ["src/*"] {[".go" := true]} ∅ = Ok ∅
      /\ scenarioGlob "src/*" = Ok ["src/main.go"; "src/notes.txt"]
      /\ has_key {[".go" := true]} (Ext "src/main.go") = true).
Proof. vm_compute. repeat split; reflexivity. Qed.

(** What the loop of lines 136-161 collects, as the code is written: an
    entry with a [*] contributes all the results of its expansion when
    the extension of the entry itself is in the filter, and none of them
    otherwise (the behaviour reported above as a defect); an entry without
    [*] contributes itself, whatever its extension and whether or not it
    exists. *)
Theorem candidates_of_resolution (Glob : string -> Result (list string))
  (extensions : gmap string bool) (paths : list string)
  (result : gmap string bool) :
  collect_paths Glob paths extensions ∅ = Ok result ->
  (forall p, p ∈ dom result <->
             exists path, path ∈ paths /\ kept_from Glob extensions path p)
  /\ (forall path ms m,
       path ∈ paths -> Contains path "*" = true -> Glob path = Ok ms ->
       m ∈ ms -> has_key extensions (Ext path) = true ->
       result !! m = Some true)
  /\ (forall path,
       path ∈ paths -> Contains path "*" = false ->
       result !! path = Some true).
Proof.
  intros HR.
  assert (Hdom : forall p, p ∈ dom result <->
            exists path, path ∈ paths /\ kept_from Glob extensions path p).
  { intros p. rewrite (collect_paths_dom _ _ _ _ _ _ HR), dom_empty.
    split; [intros [H|H]; [by apply not_elem_of_empty in H | done] | auto]. }
  assert (Htrue : forall p, p ∈ dom result -> result !! p = Some true).
  { intros p [v Hv]%elem_of_dom. rewrite Hv. f_equal.
    apply (collect_paths_true _ _ _ _ _ HR) in Hv; [done|].
    intros k b Hk. by rewrite lookup_empty in Hk. }
  split; [exact Hdom|]. split.
  - intros path ms m Hin Hg HG Hm Hext. apply Htrue, Hdom.
    exists path. split; [done|]. unfold kept_from. rewrite Hg. eauto.
  - intros path Hin Hg. apply Htrue, Hdom.
    exists path. split; [done|]. unfold kept_from. by rewrite Hg.
Qed.

Lemma candidates_of_resolution_witness :
  collect_paths scenarioGlob ["src/*.go"; "docs"] {[".go" := true]} ∅
  = Ok {["src/main.go" := true; "docs" := true]}
  /\ (forall p, p ∈ dom ({["src/main.go" := true; "docs" := true]}
                          : gmap string bool) <->
                 exists path, path ∈ ["src/*.go"; "docs"]
                              /\ kept_from scenarioGlob {[".go" := true]} path p).
Proof.
  assert (H : collect_paths scenarioGlob ["src/*.go"; "docs"] {[".go" := true]} ∅
              = Ok {["src/main.go" := true; "docs" := true]}).
  { vm_compute. reflexivity. }
  split; [exact H|].
  exact (proj1 (candidates_of_resolution scenarioGlob {[".go" := true]}
                  ["src/*.go"; "docs"] _ H)).
Defined.

(** C4 (as stated, refuted).  A malformed pattern that has no [*] is not
    expanded: it is kept as it is, and the watcher is constructed. *)
Lemma malformed_pattern_without_star_accepted :
  scenarioGlob "src/[ab" = Err (Errorf "syntax error in pattern")
  /\ NewWatcher scenarioGlob 500 ["go"] canonical_oracle canonical_oracle
       0 ["src/[ab"] [] []
     = Ok {| pollInterval := 500;
             watchItems := {["src/[ab" := true]};
             ignoreItems := ∅;
             allowedExtensions := {[".go" := true]} |}.
Proof. vm_compute. split; reflexivity. Qed.

(** C4 (amended).  If a list holds an entry with a [*] whose expansion
    fails, its resolution fails as a whole, with the error built from the
    first such entry of the list and the failure of its expansion, and no
    path set; and a construction whose watch list or ignore list holds
    such an entry returns that error and no watcher. *)
Theorem glob_failure_fails_construction (Glob : string -> Result (list string))
  (p : string) (e : error) :
  Contains p "*" = true -> Glob p = Err e ->
  (forall o paths extensions,
     p ∈ paths ->
     exists pre q e' post,
       paths = (pre ++ q :: post)%list
       /\ Contains q "*" = true /\ Glob q = Err e'
       /\ (forall x, x ∈ pre -> Contains x "*" = true ->
                      exists ms, Glob x = Ok ms)
       /\ resolvePaths Glob o paths extensions = Err (globError q e'))
  /\ (forall defaultInterval defaultExts ow oi interval watch ignore extensions,
       p ∈ watch \/ p ∈ ignore ->
       exists q e',
         (q ∈ watch \/ q ∈ ignore)
         /\ Contains q "*" = true /\ Glob q = Err e'
         /\ NewWatcher Glob defaultInterval defaultExts ow oi interval watch
              ignore extensions
            = Err (globError q e')).
Proof.
  intros Hg He.
  assert (Hres : forall o paths extensions,
    p ∈ paths ->
    exists pre q e' post,
      paths = (pre ++ q :: post)%list
      /\ Contains q "*" = true /\ Glob q = Err e'
      /\ (forall x, x ∈ pre -> Contains x "*" = true ->
                     exists ms, Glob x = Ok ms)
      /\ resolvePaths Glob o paths extensions = Err (globError q e')).
  { intros o paths extensions Hin.
    destruct (first_failure_some Glob paths p e Hin Hg He) as (q & e' & Hf).
    destruct (first_failure_first Glob paths q e' Hf)
      as (pre & post & Hp & Hq & Hqe & Hpre).
    exists pre, q, e', post. repeat split; auto.
    unfold resolvePaths.
    pose proof (collect_paths_failure Glob extensions paths ∅) as H.
    rewrite Hf in H. by rewrite H. }
  split; [exact Hres|].
  intros defaultInterval defaultExts ow oi interval watch ignore extensions Hin.
  unfold NewWatcher.
  set (exts := fold_left _ _ _).
  destruct (resolvePaths Glob ow watch exts) as [watchPaths|err] eqn:Ew.
  - destruct Hin as [Hin|Hin].
    + destruct (Hres ow watch exts Hin) as (? & ? & ? & ? & _ & _ & _ & _ & H).
      congruence.
    + destruct (Hres oi ignore exts Hin)
        as (pre & q & e' & post & -> & Hq & Hqe & _ & H).
      exists q, e'. rewrite H. repeat split; auto.
      right. apply elem_of_app. right. left.
  - unfold resolvePaths in Ew.
    pose proof (collect_paths_failure Glob exts watch ∅) as H.
    destruct (first_failure Glob watch) as [[q e']|] eqn:Ef.
    + rewrite H in Ew. injection Ew as <-.
      destruct (first_failure_first Glob watch q e' Ef)
        as (pre & post & -> & Hq & Hqe & _).
      exists q, e'. repeat split; auto.
      left. apply elem_of_app. right. left.
    + destruct H as [R HR]. by rewrite HR in Ew.
Qed.

Lemma glob_failure_fails_construction_witness :
  Contains "src/[z-a]*" "*" = true
  /\ scenarioGlob "src/[z-a]*" = Err (Errorf "invalid character class range")
  /\ exists q e',
       (q ∈ ["docs"] \/ q ∈ ["src/*.go"; "src/[z-a]*"])
       /\ Contains q "*" = true /\ scenarioGlob q = Err e'
       /\ NewWatcher scenarioGlob 500 ["go"] canonical_oracle reverse_oracle
            0 ["docs"] ["src/*.go"; "src/[z-a]*"] []
          = Err (globError q e').
Proof.
  split; [reflexivity|]. split; [reflexivity|].
  apply (proj2 (glob_failure_fails_construction scenarioGlob "src/[z-a]*"
                  (Errorf "invalid character class range") eq_refl eq_refl)).
  right. right. left.
Defined.

Lemma overlap_removal_exact_witness :
  valid_oracle reverse_oracle
  /\ (forall p,
        p ∈ dom (removeOverlappedPaths reverse_oracle
                   (gset_to_gmap true {["/root/proj"; "/root/proj/sub"; "/srv"]}))
        <-> p ∈ ({["/root/proj"; "/root/proj/sub"; "/srv"]} : gset string)
            /\ ~ overlapped {["/root/proj"; "/root/proj/sub"; "/srv"]} p).
Proof.
  split; [exact reverse_oracle_valid|].
  exact (proj1 (overlap_removal_exact reverse_oracle
                  {["/root/proj"; "/root/proj/sub"; "/srv"]}
                  reverse_oracle_valid)).
Defined.

Lemma resolvePaths_order_independent_witness :
  valid_oracle canonical_oracle /\ valid_oracle reverse_oracle
  /\ resolvePaths scenarioGlob canonical_oracle
       ["/root/proj/sub"; "src/*.go"; "/root/proj"] {[".go" := true]}
     = resolvePaths scenarioGlob reverse_oracle
         ["/root/proj/sub"; "src/*.go"; "/root/proj"] {[".go" := true]}.
Proof.
  split; [exact canonical_oracle_valid|]. split; [exact reverse_oracle_valid|].
  apply (proj1 (resolvePaths_order_independent scenarioGlob
                  canonical_oracle reverse_oracle
                  canonical_oracle reverse_oracle
                  canonical_oracle_valid reverse_oracle_valid
                  canonical_oracle_valid reverse_oracle_valid)).
Defined.


Lemma ignored_entry_skipped_witness :
  has_key (ignoreItems (scenarioWatcher ["/root/proj/sub"])) "/root/proj/sub"
  = true
  /\ walk (scanVisit (scenarioWatcher ["/root/proj/sub"]) 8) "/root/proj/sub"
       (Dir 9 true (ECons "y.go" (File 9) ENil)) initialWalk
     = Normal (Some SkipDir, logged initialWalk "/root/proj/sub").
Proof.
  split; [vm_compute; reflexivity|].
  apply (proj1 (proj1 (ignored_entry_skipped
                         (scenarioWatcher ["/root/proj/sub"]) 8)
                  "/root/proj/sub" eq_refl)).
Defined.

Lemma directory_reported_as_changed_witness :
  skipped (scenarioWatcher []) "/root/proj/sub.go" = false
  /\ has_key (allowedExtensions (scenarioWatcher [])) (Ext "/root/proj/sub.go")
     = true
  /\ 1 < 2
  /\ forall fs,
       fs "/root/proj/sub.go" = Dir 2 false ENil ->
       scanChange (scenarioWatcher []) fs 1 "/root/proj/sub.go"
       = Normal ("/root/proj/sub.go", None)
       /\ scanVisited (scenarioWatcher []) fs 1 "/root/proj/sub.go"
          = ["/root/proj/sub.go"].
Proof.
  split; [vm_compute; reflexivity|]. split; [vm_compute; reflexivity|].
  split; [lia|].
  apply (proj2 (directory_reported_as_changed (scenarioWatcher []) 1
                  "/root/proj/sub.go" eq_refl) 2 false ENil eq_refl).
  lia.
Defined.

(** The directory [sub.go] of the scenario is reported once its
    modification time is after the baseline, though [/root/proj/sub] is
    ignored: the ignore map is not matched by prefix. *)
Example scenario_directory_reported :
  scanChange (scenarioWatcher ["/root/proj/sub"]) scenarioFS 1 "/root/proj"
  = Normal ("/root/proj/sub.go", None).
Proof. vm_compute. reflexivity. Qed.

(** ** The watch loop *)

Lemma events_of_app tr1 tr2 :
  events_of (tr1 ++ tr2) = (events_of tr1 ++ events_of tr2)%list.
Proof. apply omap_app. Qed.

Lemma errors_of_app tr1 tr2 :
  errors_of (tr1 ++ tr2) = (errors_of tr1 ++ errors_of tr2)%list.
Proof. apply omap_app. Qed.

Lemma scanned_of_app tr1 tr2 :
  scanned_of (tr1 ++ tr2) = (scanned_of tr1 ++ scanned_of tr2)%list.
Proof. apply omap_app. Qed.

Lemma reports_of_app tr1 tr2 :
  reports_of (tr1 ++ tr2) = (reports_of tr1 ++ reports_of tr2)%list.
Proof. apply omap_app. Qed.


Lemma errors_of_calm tr :
  Forall (fun a => calm a = true) tr -> errors_of tr = [].
Proof.
  induction 1 as [|a tr Ha _ IH]; [done|].
  unfold errors_of in *. by destruct a.
Qed.

Lemma error_position pre S E pre' X post :
  Forall (fun a => calm a = true) pre -> calm X = false ->
  (pre ++ [S; E] = pre' ++ X :: post)%list ->
  (pre' = pre /\ X = S /\ post = [E])
  \/ (pre' = (pre ++ [S])%list /\ X = E /\ post = []).
Proof.
  intros Hpre HX. revert pre'.
  induction Hpre as [|a pre Ha _ IH]; intros pre' Heq.
  - destruct pre' as [|a [|b pre']]; simpl in Heq.
    + injection Heq as <- <-. by left.
    + injection Heq as <- <- <-. by right.
    + injection Heq as _ _ Heq. by destruct pre'.
  - destruct pre' as [|a' pre']; simpl in Heq.
    + injection Heq as -> _. congruence.
    + injection Heq as <- Heq. destruct (IH _ Heq) as [(-> & -> & ->)|(-> & -> & ->)].
      * by left.
      * by right.
Qed.

Section LoopFacts.

Variable W : World.
Variable w : watcher.

(** One root: what is added to the trace. *)
Lemma watchRoot_trace root st st' status :
  watchRoot W w root st = (st', status) ->
  exists delta,
    trace st' = (trace st ++ delta)%list
    /\ scanned_of delta = [root]
    /\ events_of delta = reports_of delta
    /\ trace_shape status delta.
Proof.
  unfold watchRoot.
  destruct (scanAt W (scans st) w (startTime st) root)
    as [[p [err|]]|] eqn:E.
  - intros [= <- <-]. eexists. simpl. rewrite <- app_assoc.
    split; [done|]. repeat split.
    exists [], root, (startTime st), p, err. split; [done|]. constructor.
  - destruct (String.eqb p "") eqn:Ep; simpl; intros [= <- <-];
      eexists; simpl; rewrite <- ?app_assoc; (split; [done|]).
    + repeat split. unfold reports_of. simpl. by rewrite Ep.
      by repeat constructor.
    + repeat split. unfold reports_of. simpl. by rewrite Ep.
      by repeat constructor.
  - intros [= <- <-]. eexists. simpl. split; [done|]. repeat split.
    by repeat constructor.
Qed.

Lemma trace_shape_app status tr1 tr2 :
  Forall (fun a => calm a = true) tr1 -> trace_shape status tr2 ->
  trace_shape status (tr1 ++ tr2).
Proof.
  intros H1 H2. destruct status; simpl in *; try by apply Forall_app.
  destruct H2 as (pre & root & b & f & e & -> & Hpre).
  exists (tr1 ++ pre)%list, root, b, f, e. rewrite <- app_assoc.
  split; [done|]. by apply Forall_app.
Qed.

(** The inner loop: the roots are scanned in order, up to the first
    error or crash; each scan that reports a change sends one event. *)
Lemma watchRoots_trace roots st st' status :
  watchRoots W w roots st = (st', status) ->
  exists delta,
    trace st' = (trace st ++ delta)%list
    /\ scanned_of delta `prefix_of` roots
    /\ (status = Running -> scanned_of delta = roots)
    /\ events_of delta = reports_of delta
    /\ trace_shape status delta.
Proof.
  revert st. induction roots as [|root rest IH]; intros st; simpl.
  { intros [= <- <-]. exists []. rewrite app_nil_r.
    repeat split; auto. constructor. }
  destruct (watchRoot W w root st) as [st1 status1] eqn:E1.
  apply watchRoot_trace in E1 as (d1 & Ht1 & Hs1 & He1 & Hsh1).
  destruct status1.
  - intros H. apply IH in H as (d2 & Ht2 & Hs2 & Hr2 & He2 & Hsh2).
    exists (d1 ++ d2)%list. rewrite Ht2, Ht1, <- app_assoc.
    rewrite scanned_of_app, events_of_app, reports_of_app, Hs1, He1, He2.
    split; [done|]. split; [by apply prefix_cons|].
    split; [intros Hrun; simpl; f_equal; auto|].
    split; [done|]. by apply trace_shape_app.
  - intros [= <- <-]. exists d1. rewrite Hs1.
    split; [done|]. split; [by apply prefix_cons, prefix_nil|].
    split; [done|]. auto.
  - intros [= <- <-]. exists d1. rewrite Hs1.
    split; [done|]. split; [by apply prefix_cons, prefix_nil|].
    split; [done|]. auto.
Qed.

Lemma watchFrom_shape n c st st' status :
  watchFrom W n c w st = (st', status) ->
  exists delta,
    trace st' = (trace st ++ delta)%list /\ trace_shape status delta.
Proof.
  revert c st. induction n as [|n IH]; intros c st; simpl.
  { intros [= <- <-]. exists []. rewrite app_nil_r. split; [done|].
    constructor. }
  unfold watchCycle.
  destruct (watchRoots W w _ st) as [st1 status1] eqn:E1.
  apply watchRoots_trace in E1 as (d1 & Ht1 & _ & _ & _ & Hsh1).
  destruct status1.
  - intros H. apply IH in H as (d2 & Ht2 & Hsh2).
    exists (d1 ++ Sleep (sleepDuration w) :: d2)%list.
    rewrite Ht2. simpl. rewrite Ht1, <- !app_assoc. split; [done|].
    apply trace_shape_app; [done|].
    change (Sleep (sleepDuration w) :: d2)
      with ([Sleep (sleepDuration w)] ++ d2)%list.
    apply trace_shape_app; [by repeat constructor | done].
  - intros [= <- <-]. eauto.
  - intros [= <- <-]. eauto.
Qed.

(** Once [Watch] has returned, more cycles change nothing. *)
Lemma watchFrom_stopped n m c st st' :
  watchFrom W n c w st = (st', Stopped) -> (n <= m)%nat ->
  watchFrom W m c w st = (st', Stopped).
Proof.
  revert m c st. induction n as [|n IH]; intros m c st; simpl; [done|].
  intros H Hle. destruct m as [|m]; [lia|]. simpl.
  destruct (watchCycle W c w st) as [st1 [| |]]; try done.
  apply IH; [done|lia].
Qed.

End LoopFacts.




(** C3 (as stated, refuted).  Two watchers constructed independently
    share one baseline.  Alone, the watcher of [/b] reports [y.go],
    written at time 7.  If the watcher of [/a] first reports [x.go] and
    sets the baseline to the time of that delivery, 10, the scan of the
    watcher of [/b] reads 10 and does not report [y.go]. *)
Lemma watchers_share_the_baseline :
  NewWatcher scenarioGlob 500 ["go"] canonical_oracle canonical_oracle
    0 ["/a"] [] [] = Ok (rootsWatcher ["/a"])
  /\ NewWatcher scenarioGlob 500 ["go"] canonical_oracle canonical_oracle
       0 ["/b"] [] [] = Ok (rootsWatcher ["/b"])
  /\ watchCycle stillWorld 0 (rootsWatcher ["/b"]) (programStart 0)
     = ({| startTime := 10; scans := 1;
           trace := [ Scanned "/b" 0 (Normal ("/b/y.go", None));
                      SendEvent "/b/y.go"; SetStartTime 10 ] |}, Running)
  /\ watchCycle stillWorld 0 (rootsWatcher ["/b"])
       (watchCycle stillWorld 0 (rootsWatcher ["/a"]) (programStart 0)).1
     = ({| startTime := 10; scans := 2;
           trace := [ Scanned "/a" 0 (Normal ("/a/x.go", None));
                      SendEvent "/a/x.go"; SetStartTime 10;
                      Scanned "/b" 10 (Normal ("", None)) ] |}, Running).
Proof. vm_compute. repeat split; reflexivity. Qed.

(** C3 (amended).  The baseline is the package variable [startTime], one
    for the whole process and not a part of any watcher: it is set when
    the program starts, construction neither reads nor writes it, and the
    loop of every watcher reads it for each scan and sets it to the
    current time exactly when it has delivered a change.  So the scan of
    any watcher that runs next reads the value the previous one left. *)
Theorem baseline_is_package_variable (W : World) (w : watcher) (root : string)
  (st : LoopState) :
  let result := scanAt W (scans st) w (startTime st) root in
  let st' := (watchRoot W w root st).1 in
  (exists delta,
     trace st' = (trace st ++ Scanned root (startTime st) result :: delta)%list
     /\ match reported (Scanned root (startTime st) result) with
        | Some p =>
            delta = [SendEvent p; SetStartTime (nowAt W (scans st))]
            /\ startTime st' = nowAt W (scans st)
        | None => events_of delta = [] /\ startTime st' = startTime st
        end)
  /\ (forall w2 root2,
       exists delta2,
         trace (watchRoot W w2 root2 st').1
         = (trace st'
            ++ Scanned root2 (startTime st')
                 (scanAt W (scans st') w2 (startTime st') root2)
            :: delta2)%list).
Proof.
  assert (Hscan : forall w0 root0 st0,
    exists delta0,
      trace (watchRoot W w0 root0 st0).1
      = (trace st0
         ++ Scanned root0 (startTime st0)
              (scanAt W (scans st0) w0 (startTime st0) root0)
         :: delta0)%list
      /\ match reported (Scanned root0 (startTime st0)
                           (scanAt W (scans st0) w0 (startTime st0) root0)) with
         | Some p =>
             delta0 = [SendEvent p; SetStartTime (nowAt W (scans st0))]
             /\ startTime (watchRoot W w0 root0 st0).1 = nowAt W (scans st0)
         | None =>
             events_of delta0 = []
             /\ startTime (watchRoot W w0 root0 st0).1 = startTime st0
         end).
  { intros w0 root0 st0. unfold watchRoot, reported.
    destruct (scanAt W (scans st0) w0 (startTime st0) root0)
      as [[p [err|]]|]; simpl.
    - exists [SendError err]. by rewrite <- app_assoc.
    - destruct (String.eqb p ""); simpl.
      + exists []. done.
      + eexists. rewrite <- app_assoc. simpl. done.
    - exists []. done. }
  intros result st'. split.
  - apply Hscan.
  - intros w2 root2. destruct (Hscan w2 root2 st') as (d & Hd & _). eauto.
Qed.

(** C7. A scan that returns an error is followed by the delivery of that
    error and by nothing else: no root is scanned after it, no event is
    sent after it, and [Watch] has returned, for good (running the loop
    longer gives the same trace).  An error is delivered only so, hence
    at most once in a run of [Watch]. *)
Theorem error_stops_the_loop (W : World) (n : nat) (w : watcher)
  (st0 st : LoopState) (status : Status) :
  trace st0 = [] ->
  Watch W n w st0 = (st, status) ->
  (forall pre root b f e post,
     trace st = (pre ++ Scanned root b (Normal (f, Some e)) :: post)%list ->
     post = [SendError e] /\ status = Stopped)
  /\ (forall pre e post,
       trace st = (pre ++ SendError e :: post)%list ->
       post = [] /\ status = Stopped
       /\ exists pre' root b f,
            pre = (pre' ++ [Scanned root b (Normal (f, Some e))])%list)
  /\ (length (errors_of (trace st)) <= 1)%nat
  /\ (status = Stopped ->
      forall m, (n <= m)%nat -> Watch W m w st0 = (st, Stopped)).
Proof.
  intros H0 HW. unfold Watch in *.
  destruct (watchFrom_shape W w n 0 st0 st status HW) as (delta & Ht & Hsh).
  rewrite H0 in Ht. simpl in Ht. rewrite <- Ht in Hsh. clear delta Ht.
  assert (Hcalm : forall pre X post,
    calm X = false -> trace st = (pre ++ X :: post)%list ->
    exists cl root b f e,
      status = Stopped
      /\ ((pre = cl /\ X = Scanned root b (Normal (f, Some e))
           /\ post = [SendError e])
          \/ (pre = (cl ++ [Scanned root b (Normal (f, Some e))])%list
              /\ X = SendError e /\ post = []))).
  { intros pre X post HX Heq.
    destruct status; simpl in Hsh.
    - rewrite Heq in Hsh. apply Forall_app in Hsh as [_ Hsh].
      apply Forall_cons in Hsh as [Hsh _]. congruence.
    - destruct Hsh as (cl & root & b & f & e & Htr & Hcl).
      rewrite Htr in Heq.
      exists cl, root, b, f, e. split; [done|].
      by apply error_position.
    - rewrite Heq in Hsh. apply Forall_app in Hsh as [_ Hsh].
      apply Forall_cons in Hsh as [Hsh _]. congruence. }
  split; [|split; [|split]].
  - intros pre root b f e post Heq.
    destruct (Hcalm pre (Scanned root b (Normal (f, Some e))) post eq_refl Heq)
      as (cl & root' & b' & f' & e' & Hs & [(_ & HX & ->)|(_ & HX & _)]);
      [|done].
    injection HX as _ _ _ ->. done.
  - intros pre e post Heq.
    destruct (Hcalm pre (SendError e) post eq_refl Heq)
      as (cl & root' & b' & f' & e' & Hs & [(_ & HX & _)|(-> & HX & ->)]);
      [done|].
    injection HX as ->. split; [done|]. split; [done|]. eauto.
  - destruct status; simpl in Hsh.
    + rewrite errors_of_calm by done. simpl. lia.
    + destruct Hsh as (cl & root & b & f & e & -> & Hcl).
      rewrite errors_of_app, (errors_of_calm _ Hcl). simpl. lia.
    + rewrite errors_of_calm by done. simpl. lia.
  - intros -> m Hle. by apply (watchFrom_stopped W w n).
Qed.

Lemma error_stops_the_loop_witness :
  trace (programStart 0) = []
  /\ Watch failingWorld 3 (rootsWatcher ["/a"]) (programStart 0)
     = ({| startTime := 0; scans := 2;
           trace := [ Scanned "/a" 0 (Normal ("", None)); Sleep 500000000;
                      Scanned "/a" 0
                        (Normal ("", Some (Errorf "permission denied")));
                      SendError (Errorf "permission denied") ] |}, Stopped)
  /\ forall m, (3 <= m)%nat ->
       Watch failingWorld m (rootsWatcher ["/a"]) (programStart 0)
       = ({| startTime := 0; scans := 2;
             trace := [ Scanned "/a" 0 (Normal ("", None)); Sleep 500000000;
                        Scanned "/a" 0
                          (Normal ("", Some (Errorf "permission denied")));
                        SendError (Errorf "permission denied") ] |}, Stopped).
Proof.
  assert (H : Watch failingWorld 3 (rootsWatcher ["/a"]) (programStart 0)
     = ({| startTime := 0; scans := 2;
           trace := [ Scanned "/a" 0 (Normal ("", None)); Sleep 500000000;
                      Scanned "/a" 0
                        (Normal ("", Some (Errorf "permission denied")));
                      SendError (Errorf "permission denied") ] |}, Stopped)).
  { vm_compute. reflexivity. }
  split; [reflexivity|]. split; [exact H|].
  exact (proj2 (proj2 (proj2 (error_stops_the_loop failingWorld 3
                                (rootsWatcher ["/a"]) (programStart 0) _ _
                                eq_refl H))) eq_refl).
Defined.

(** * Further properties of the code *)

(** ** The scanner *)

(** X1. [scanChange] never returns an error: whatever fails while the
    tree is walked, the walk hands it to the callback, which does not
    look at it; the scan returns a path (possibly empty) with a nil error,
    or dereferences a nil [info] and panics.  The branch of lines 126-128
    is never taken. *)
Theorem scanner_never_returns_error (w : watcher) (fs : FS) (t : Z)
  (root : string) :
  scanChange w fs t root = Panic
  \/ exists p, scanChange w fs t root = Normal (p, None).
Proof.
  rewrite scanChange_scanList.
  destruct (scanList w t _ initialWalk) as [[b s']|]; eauto.
Qed.

(** X2. A watch root that does not exist is no error.  If the root is
    neither hidden nor ignored and its extension is not in the filter, the
    scan reports nothing; otherwise the callback reads the nil [info] and
    the scan panics. *)
Theorem missing_root_scan (w : watcher) (fs : FS) (t : Z) (root : string) :
  fs root = Missing ->
  scanChange w fs t root
  = if skipped w root || has_key (allowedExtensions w) (Ext root)
    then Panic else Normal ("", None).
Proof.
  intros Hfs. rewrite scanChange_scanList, Hfs. simpl. unfold verdict.
  destruct (skipped w root); [done|]. simpl.
  by destruct (has_key _ _).
Qed.

Lemma missing_root_scan_witness :
  scenarioFS "/root/main.go" = Missing
  /\ scanChange (scenarioWatcher []) scenarioFS 8 "/root/main.go" = Panic.
Proof.
  split; [reflexivity|].
  exact (missing_root_scan (scenarioWatcher []) scenarioFS 8 "/root/main.go"
           eq_refl).
Defined.

(** X3. A hidden entry (last path element beginning with a dot, other
    than ["."]) is skipped before anything else is looked at: a directory
    is pruned, with only itself visited and whatever its extension or its
    time; a file is skipped alone; the walk of the parent goes on; and a
    scan whose root is hidden reports nothing. *)
Theorem hidden_entry_skipped (w : watcher) (t : Z) (path : string) :
  hidden path = true ->
  (forall mt readable entries s,
     walk (scanVisit w t) path (Dir mt readable entries) s
     = Normal (Some SkipDir, logged s path))
  /\ (forall mt s,
       walk (scanVisit w t) path (File mt) s = Normal (None, logged s path))
  /\ (forall dir name n rest s,
       Join dir name = path -> lstat n <> None ->
       walkEntries (scanVisit w t) dir (ECons name n rest) s
       = walkEntries (scanVisit w t) dir rest (logged s path))
  /\ (forall fs,
       lstat (fs path) <> None ->
       scanChange w fs t path = Normal ("", None)
       /\ scanVisited w fs t path = [path]).
Proof.
  intros Hh.
  assert (Hs : skipped w path = true) by (unfold skipped; by rewrite Hh).
  assert (Hdir : forall mt readable entries s,
    walk (scanVisit w t) path (Dir mt readable entries) s
    = Normal (Some SkipDir, logged s path)).
  { intros. cbn [walk lstat]. unfold bind. rewrite scanVisit_verdict.
    unfold verdict. rewrite Hs. simpl. by rewrite orb_true_r. }
  assert (Hfile : forall mt s,
    walk (scanVisit w t) path (File mt) s = Normal (None, logged s path)).
  { intros. cbn [walk lstat]. rewrite scanVisit_verdict.
    unfold verdict. by rewrite Hs. }
  split; [exact Hdir|]. split; [exact Hfile|]. split.
  - intros dir name n rest s HJ Hl. cbn [walkEntries]. rewrite HJ.
    destruct n as [|mt|mt readable entries]; [done| |]; cbn [lstat];
      unfold bind.
    + by rewrite Hfile.
    + by rewrite Hdir.
  - intros fs Hl. rewrite scanChange_scanList, scanVisited_scanList.
    destruct (fs path) as [|mt|mt readable entries]; [done| |];
      cbn [traversal lstat scanList]; unfold verdict; rewrite Hs; simpl;
      done.
Qed.

Lemma hidden_entry_skipped_witness :
  hidden ".." = true
  /\ forall fs,
       lstat (fs "..") <> None ->
       scanChange (scenarioWatcher []) fs 0 ".." = Normal ("", None)
       /\ scanVisited (scenarioWatcher []) fs 0 ".." = [".."].
Proof.
  split; [reflexivity|].
  exact (proj2 (proj2 (proj2 (hidden_entry_skipped (scenarioWatcher []) 0 ".."
                                eq_refl)))).
Defined.

(** X4. A directory whose entries cannot be read is no error either: the
    callback is called for the directory itself and for nothing under it,
    and the walk goes on after it.  A scan rooted at such a directory
    returns the directory if it is eligible and newer than the baseline,
    and nothing otherwise. *)
Theorem unreadable_directory_skipped (w : watcher) (t : Z) (path : string)
  (mt : Z) (entries : Entries) :
  (forall entries' s,
     walk (scanVisit w t) path (Dir mt false entries) s
     = walk (scanVisit w t) path (Dir mt false entries') s)
  /\ (forall fs,
       fs path = Dir mt false entries ->
       scanChange w fs t path
       = (if eligible w path && After mt t then Normal (path, None)
          else Normal ("", None))
       /\ scanVisited w fs t path = [path]).
Proof.
  split.
  - intros entries' s. cbn [walk lstat]. unfold bind.
    rewrite scanVisit_verdict.
    by destruct (verdict w t path _).
  - intros fs Hfs. rewrite scanChange_scanList, scanVisited_scanList, Hfs.
    cbn [traversal lstat]. rewrite orb_true_r. cbn [scanList].
    unfold verdict, eligible.
    destruct (skipped w path); simpl; [done|].
    destruct (has_key _ _); simpl; [|done].
    by destruct (After mt t).
Qed.

Lemma unreadable_directory_skipped_witness :
  (fun _ : string => Dir 2 false (ECons "y.go" (File 9) ENil)) "/root/proj/sub.go"
  = Dir 2 false (ECons "y.go" (File 9) ENil)
  /\ scanChange (scenarioWatcher [])
       (fun _ => Dir 2 false (ECons "y.go" (File 9) ENil)) 5 "/root/proj/sub.go"
     = Normal ("", None).
Proof.
  split; [reflexivity|].
  exact (proj1 (proj2 (unreadable_directory_skipped (scenarioWatcher []) 5
                         "/root/proj/sub.go" 2 (ECons "y.go" (File 9) ENil))
                  (fun _ => Dir 2 false (ECons "y.go" (File 9) ENil)) eq_refl)).
Defined.

(** X5. The callback is only ever called along the pre-order traversal:
    the entries a scan visits are an initial part of that order, so
    nothing under a hidden, ignored or unreadable directory is visited,
    whatever the baseline; and the path a scan returns is the last entry
    it visited. *)
Theorem visited_is_initial_part_of_traversal (w : watcher) (fs : FS) (t : Z)
  (root : string) :
  scanVisited w fs t root `prefix_of` (traversal w root (fs root)).*1
  /\ (forall p, scanChange w fs t root = Normal (p, None) -> p <> "" ->
                last (scanVisited w fs t root) = Some p).
Proof.
  rewrite scanChange_scanList, scanVisited_scanList.
  destruct (scanList w t _ initialWalk) as [[b s']|] eqn:E.
  2:{ split; [apply prefix_nil|done]. }
  apply scanList_inv in E. destruct b.
  - destruct E as (pre & p' & info & post & -> & _ & _ & ->). simpl. split.
    + rewrite fmap_app. simpl. exists (post.*1).
      by rewrite <- app_assoc.
    + intros p [= <-] _. by rewrite last_snoc.
  - destruct E as [_ ->]. simpl. split; [done|].
    intros p [= <-] Hne. done.
Qed.

Lemma visited_is_initial_part_of_traversal_witness :
  scanChange (scenarioWatcher ["/root/proj/sub"]) scenarioFS 5 "/root/proj"
  = Normal ("/root/proj/x.go", None)
  /\ "/root/proj/x.go" <> ""
  /\ last (scanVisited (scenarioWatcher ["/root/proj/sub"]) scenarioFS 5
             "/root/proj")
     = Some "/root/proj/x.go".
Proof.
  assert (H : scanChange (scenarioWatcher ["/root/proj/sub"]) scenarioFS 5
                "/root/proj" = Normal ("/root/proj/x.go", None)).
  { vm_compute. reflexivity. }
  split; [exact H|]. split; [discriminate|].
  apply (proj2 (visited_is_initial_part_of_traversal
                  (scenarioWatcher ["/root/proj/sub"]) scenarioFS 5
                  "/root/proj") _ H).
  discriminate.
Defined.

Lemma verdict_later (w : watcher) (t t' : Z) (e : string * option FileInfo) :
  t <= t' -> quiet w t e -> quiet w t' e.
Proof.
  intros Hle [H1 H2]. unfold quiet, verdict, After in *.
  destruct (skipped w e.1); [by destruct e.2|].
  destruct (has_key _ _); [|done].
  destruct e.2 as [i|]; [|done].
  destruct (Z.ltb_spec t (ModTime i)); [done|].
  destruct (Z.ltb_spec t' (ModTime i)); [lia|done].
Qed.

(** X6. Moving the baseline forward never makes a change appear: if a
    scan reports nothing with the baseline at [t], it reports nothing with
    any later baseline.  (The filter is assumed not to hold the empty
    extension, as is the case for every watcher that [NewWatcher]
    builds.) *)
Theorem later_baseline_reports_nothing (w : watcher) (fs : FS) (t t' : Z)
  (root : string) :
  has_key (allowedExtensions w) "" = false ->
  t <= t' ->
  scanChange w fs t root = Normal ("", None) ->
  scanChange w fs t' root = Normal ("", None).
Proof.
  intros Hno Hle. rewrite !scanChange_scanList.
  destruct (scanList w t _ initialWalk) as [[b s']|] eqn:E; [|done].
  apply scanList_inv in E. destruct b.
  - destruct E as (pre & p & info & post & _ & _ & Hv & ->). simpl.
    intros [= ->]. apply verdict_Changed in Hv as [He _].
    unfold eligible in He. apply andb_true_iff in He as [_ He].
    change (Ext "") with "" in He. congruence.
  - destruct E as [Hq _]. intros _.
    rewrite scanList_quiet; [done|].
    intros e He. apply (verdict_later w t t'); auto.
Qed.

Lemma later_baseline_reports_nothing_witness :
  has_key (allowedExtensions (scenarioWatcher ["/root/proj/sub"])) "" = false
  /\ 8 <= 12
  /\ scanChange (scenarioWatcher ["/root/proj/sub"]) scenarioFS 8 "/root/proj"
     = Normal ("", None)
  /\ scanChange (scenarioWatcher ["/root/proj/sub"]) scenarioFS 12 "/root/proj"
     = Normal ("", None).
Proof.
  assert (H : scanChange (scenarioWatcher ["/root/proj/sub"]) scenarioFS 8
                "/root/proj" = Normal ("", None)).
  { vm_compute. reflexivity. }
  split; [vm_compute; reflexivity|]. split; [lia|]. split; [exact H|].
  apply (later_baseline_reports_nothing (scenarioWatcher ["/root/proj/sub"])
           scenarioFS 8 12 "/root/proj"); [vm_compute; reflexivity | lia | exact H].
Defined.

(** ** Construction *)

Lemma allowedExts_keys (extensions : list string) (m : gmap string bool)
  (k : string) (v : bool) :
  fold_left (fun m ext => <["." ++ ext := true]> m) extensions m !! k = Some v
  <-> (exists ext, ext ∈ extensions /\ k = "." ++ ext /\ v = true)
      \/ ((forall ext, ext ∈ extensions -> k <> "." ++ ext) /\ m !! k = Some v).
Proof.
  revert m. induction extensions as [|a exts IH]; intros m; simpl.
  { split.
    - intros H. right. split; [|done]. intros ext Hin.
      by apply elem_of_nil in Hin.
    - intros [(ext & Hin & _)|[_ H]]; [by apply elem_of_nil in Hin | done]. }
  rewrite IH. clear IH. split.
  - intros [(ext & Hin & -> & ->)|[Hno Hk]].
    + left. exists ext. split; [by right | done].
    + destruct (decide (k = "." ++ a)) as [->|Hne].
      * rewrite lookup_insert_eq in Hk. injection Hk as <-.
        left. exists a. split; [left | done].
      * rewrite lookup_insert_ne in Hk by done. right. split; [|done].
        intros ext Hin. apply elem_of_cons in Hin as [->|Hin]; auto.
  - intros [(ext & Hin & -> & ->)|[Hno Hk]].
    + destruct (decide (ext ∈ exts)) as [Hin'|Hnin].
      * left. eauto.
      * apply elem_of_cons in Hin as [->|Hin]; [|done].
        right. split; [|apply lookup_insert_eq].
        intros e He Heq. unfold String.append in Heq.
        injection Heq as ->. done.
    + right. split.
      * intros ext Hin. apply Hno. by right.
      * rewrite lookup_insert_ne; [done|]. intros Heq. apply (Hno a); [left|done].
Qed.

Lemma resolvePaths_lookup (Glob : string -> Result (list string))
  (o : RangeOracle) (paths : list string) (extensions R : gmap string bool)
  (p : string) (v : bool) :
  valid_oracle o ->
  resolvePaths Glob o paths extensions = Ok R ->
  R !! p = Some v <->
  v = true /\ candidate Glob extensions paths p
  /\ ~ (exists q, candidate Glob extensions paths q
                  /\ q <> p /\ HasPrefix p q = true).
Proof.
  intros Hv. unfold resolvePaths.
  destruct (collect_paths Glob paths extensions ∅) as [C|] eqn:EC; [|done].
  intros [= <-]. rewrite removeOverlappedPaths_lookup by done.
  assert (Hdom : forall x, x ∈ dom C <-> candidate Glob extensions paths x).
  { intros x. rewrite (collect_paths_dom _ _ _ _ _ _ EC), dom_empty.
    unfold candidate.
    split; [intros [H|H]; [by apply not_elem_of_empty in H | done] | auto]. }
  assert (Htrue : forall x, C !! x = Some true <-> x ∈ dom C).
  { intros x. rewrite elem_of_dom. split; [eauto|]. intros [b Hb].
    rewrite Hb. f_equal.
    apply (collect_paths_true _ _ _ _ _ EC) in Hb; [done|].
    intros k b' Hk. by rewrite lookup_empty in Hk. }
  rewrite Htrue, Hdom. unfold overlapped.
  split; intros (-> & Hc & Hno); (split; [done|]); (split; [done|]);
    intros (q & Hq & Hne & Hpre); apply Hno; exists q;
    (split; [by apply Hdom | done]).
Qed.

Lemma first_failure_none (Glob : string -> Result (list string))
  (paths : list string) :
  first_failure Glob paths = None <->
  forall x, x ∈ paths -> Contains x "*" = true -> exists ms, Glob x = Ok ms.
Proof.
  split.
  - intros Hn x Hin Hg. destruct (Glob x) as [ms|e] eqn:E; [eauto|].
    destruct (first_failure_some Glob paths x e Hin Hg E) as (q & e' & H).
    congruence.
  - intros H. destruct (first_failure Glob paths) as [[q e]|] eqn:E; [|done].
    destruct (first_failure_first Glob paths q e E)
      as (pre & post & -> & Hq & Hqe & _).
    destruct (H q) as [ms Hms]; [|done|congruence].
    apply elem_of_app. right. left.
Qed.

(** ** Path resolution *)

(** X7. What [resolvePaths] returns.  If some entry with a [*] fails to
    expand, the error of the first such entry; otherwise a map, all of
    whose values are [true], whose keys are exactly the candidates that no
    other candidate is a proper string prefix of. *)
Theorem resolved_paths_are_minimal_candidates
  (Glob : string -> Result (list string)) (o : RangeOracle)
  (paths : list string) (extensions : gmap string bool) :
  valid_oracle o ->
  match first_failure Glob paths with
  | Some (q, e) => resolvePaths Glob o paths extensions = Err (globError q e)
  | None =>
      exists R,
        resolvePaths Glob o paths extensions = Ok R
        /\ all_true R
        /\ forall p,
             p ∈ dom R <->
             candidate Glob extensions paths p
             /\ forall q, candidate Glob extensions paths q -> q <> p ->
                          HasPrefix p q = false
  end.
Proof.
  intros Hv.
  pose proof (collect_paths_failure Glob extensions paths ∅) as Hf.
  destruct (first_failure Glob paths) as [[q e]|].
  { unfold resolvePaths. by rewrite Hf. }
  destruct Hf as [C HC].
  assert (HR : resolvePaths Glob o paths extensions
               = Ok (removeOverlappedPaths o C)).
  { unfold resolvePaths. by rewrite HC. }
  exists (removeOverlappedPaths o C). split; [done|]. split.
  - intros k v Hk. by apply (resolvePaths_lookup _ _ _ _ _ _ _ Hv HR) in Hk as [? _].
  - intros p. rewrite elem_of_dom. split.
    + intros [v Hk].
      apply (resolvePaths_lookup _ _ _ _ _ _ _ Hv HR) in Hk as (_ & Hc & Hno).
      split; [done|]. intros q Hq Hne.
      destruct (HasPrefix p q) eqn:E; [|done]. exfalso. apply Hno. eauto.
    + intros [Hc Hno]. exists true.
      apply (resolvePaths_lookup _ _ _ _ _ _ _ Hv HR).
      split; [done|]. split; [done|].
      intros (q & Hq & Hne & Hpre). rewrite (Hno q Hq Hne) in Hpre. done.
Qed.

Lemma resolved_paths_are_minimal_candidates_witness :
  valid_oracle reverse_oracle
  /\ match first_failure scenarioGlob ["src/*.go"; "src/[z-a]*"] with
     | Some (q, e) =>
         resolvePaths scenarioGlob reverse_oracle ["src/*.go"; "src/[z-a]*"]
           {[".go" := true]}
         = Err (globError q e)
     | None =>
         exists R,
           resolvePaths scenarioGlob reverse_oracle ["src/*.go"; "src/[z-a]*"]
             {[".go" := true]} = Ok R
           /\ all_true R
           /\ forall p,
                p ∈ dom R <->
                candidate scenarioGlob {[".go" := true]}
                  ["src/*.go"; "src/[z-a]*"] p
                /\ forall q,
                     candidate scenarioGlob {[".go" := true]}
                       ["src/*.go"; "src/[z-a]*"] q ->
                     q <> p -> HasPrefix p q = false
     end.
Proof.
  split; [exact reverse_oracle_valid|].
  exact (resolved_paths_are_minimal_candidates scenarioGlob reverse_oracle
           ["src/*.go"; "src/[z-a]*"] {[".go" := true]} reverse_oracle_valid).
Defined.

(** X8. The result of a resolution depends on its input list only as a
    set: listing an entry twice or in another place changes nothing, as
    long as the resolution succeeds (which of several failing entries is
    named in the error does depend on the order). *)
Theorem resolution_ignores_order_and_duplicates
  (Glob : string -> Result (list string)) (o o' : RangeOracle)
  (paths paths' : list string) (extensions R : gmap string bool) :
  valid_oracle o -> valid_oracle o' ->
  (forall x, x ∈ paths <-> x ∈ paths') ->
  resolvePaths Glob o paths extensions = Ok R ->
  resolvePaths Glob o' paths' extensions = Ok R.
Proof.
  intros Hv Hv' Hset HR.
  assert (Hn : first_failure Glob paths = None).
  { pose proof (collect_paths_failure Glob extensions paths ∅) as Hf.
    destruct (first_failure Glob paths) as [[q e]|]; [|done].
    unfold resolvePaths in HR. by rewrite Hf in HR. }
  assert (Hn' : first_failure Glob paths' = None).
  { apply first_failure_none. intros x Hx.
    apply (proj1 (first_failure_none Glob paths) Hn). by apply Hset. }
  pose proof (collect_paths_failure Glob extensions paths' ∅) as Hf.
  rewrite Hn' in Hf. destruct Hf as [C' HC'].
  assert (HR' : resolvePaths Glob o' paths' extensions
                = Ok (removeOverlappedPaths o' C')).
  { unfold resolvePaths. by rewrite HC'. }
  rewrite HR'. f_equal. apply map_eq. intros p. apply option_eq. intros v.
  rewrite (resolvePaths_lookup _ _ _ _ _ _ _ Hv' HR').
  rewrite (resolvePaths_lookup _ _ _ _ _ _ _ Hv HR).
  assert (Hc : forall x, candidate Glob extensions paths' x
                         <-> candidate Glob extensions paths x).
  { intros x. unfold candidate. split; intros (path & Hin & Hk);
      exists path; (split; [by apply Hset | done]). }
  split; intros (-> & Hcp & Hno); (split; [done|]);
    (split; [by apply Hc|]);
    intros (q & Hq & Hne & Hpre); apply Hno; exists q;
    (split; [by apply Hc | done]).
Qed.

Lemma resolution_ignores_order_and_duplicates_witness :
  valid_oracle canonical_oracle /\ valid_oracle reverse_oracle
  /\ (forall x, x ∈ ["/root/proj"; "src/*.go"]
                <-> x ∈ ["src/*.go"; "/root/proj"; "src/*.go"])
  /\ resolvePaths scenarioGlob canonical_oracle ["/root/proj"; "src/*.go"]
       {[".go" := true]}
     = Ok {["/root/proj" := true; "src/main.go" := true]}
  /\ resolvePaths scenarioGlob reverse_oracle
       ["src/*.go"; "/root/proj"; "src/*.go"] {[".go" := true]}
     = Ok {["/root/proj" := true; "src/main.go" := true]}.
Proof.
  assert (Hset : forall x, x ∈ ["/root/proj"; "src/*.go"]
                           <-> x ∈ ["src/*.go"; "/root/proj"; "src/*.go"]).
  { intros x. rewrite !elem_of_cons, !elem_of_nil. tauto. }
  assert (H : resolvePaths scenarioGlob canonical_oracle
                ["/root/proj"; "src/*.go"] {[".go" := true]}
              = Ok {["/root/proj" := true; "src/main.go" := true]}).
  { vm_compute. reflexivity. }
  split; [exact canonical_oracle_valid|]. split; [exact reverse_oracle_valid|].
  split; [exact Hset|]. split; [exact H|].
  exact (resolution_ignores_order_and_duplicates scenarioGlob
           canonical_oracle reverse_oracle _ _ _ _
           canonical_oracle_valid reverse_oracle_valid Hset H).
Defined.

Lemma HasPrefix_length (s p : string) :
  HasPrefix s p = true ->
  (String.length p <= String.length s)%nat
  /\ (String.length p = String.length s -> s = p).
Proof.
  revert s. induction p as [|c p IH]; intros [|d s]; simpl; try done.
  - intros _. split; [lia|done].
  - rewrite andb_true_iff, Ascii.eqb_eq. intros [-> H].
    destruct (IH _ H) as [Hle Heq]. split; [lia|].
    intros [= Hl]. f_equal. auto.
Qed.

(** Every key of an all-true map has a prefix among the keys that overlap
    removal keeps. *)
Lemma kept_prefix_exists (o : RangeOracle) (m : gmap string bool) (p : string) :
  valid_oracle o -> all_true m -> p ∈ dom m ->
  exists q, q ∈ dom (removeOverlappedPaths o m) /\ HasPrefix p q = true.
Proof.
  intros Hv Ht. remember (String.length p) as n eqn:Hn.
  revert p Hn. induction n as [n IH] using lt_wf_ind. intros p Hn Hp.
  destruct (overlapped_dec (dom m) p) as [(q & Hq & Hne & Hpre)|Hno].
  - destruct (HasPrefix_length _ _ Hpre) as [Hle Heq].
    assert (Hlt : (String.length q < n)%nat).
    { destruct (decide (String.length q = String.length p)) as [E|E].
      - exfalso. apply Hne. symmetry. auto.
      - lia. }
    destruct (IH _ Hlt q eq_refl Hq) as (r & Hr & Hrq).
    exists r. split; [done|]. by apply (HasPrefix_trans p q r).
  - exists p. split; [|apply HasPrefix_refl].
    apply elem_of_dom. exists true.
    apply removeOverlappedPaths_lookup; [done|].
    split; [done|]. split; [|done].
    apply elem_of_dom in Hp as [b Hb]. rewrite Hb. f_equal. by apply (Ht p).
Qed.

(** X9. Overlap removal is idempotent: applied to its own result, in any
    order of the loops, it removes nothing more. *)
Theorem overlap_removal_idempotent (o o' : RangeOracle) (m : gmap string bool) :
  valid_oracle o -> valid_oracle o' ->
  removeOverlappedPaths o' (removeOverlappedPaths o m)
  = removeOverlappedPaths o m.
Proof.
  intros Hv Hv'. apply map_eq. intros p. apply option_eq. intros v.
  rewrite (removeOverlappedPaths_lookup o' _ p v Hv'). split.
  - by intros (-> & H & _).
  - intros H.
    pose proof (proj1 (removeOverlappedPaths_lookup o m p v Hv) H)
      as (-> & Hp & Hno).
    split; [done|]. split; [exact H|].
    intros (q & Hq & Hne & Hpre). apply Hno. exists q.
    split; [|done]. apply elem_of_dom in Hq as [b Hb].
    apply removeOverlappedPaths_lookup in Hb as (_ & Hb & _); [|done].
    apply elem_of_dom. eauto.
Qed.

Lemma overlap_removal_idempotent_witness :
  valid_oracle canonical_oracle /\ valid_oracle reverse_oracle
  /\ removeOverlappedPaths reverse_oracle
       (removeOverlappedPaths canonical_oracle
          {["/a" := true; "/a/b" := true; "/c" := false; "/c/d" := true]})
     = removeOverlappedPaths canonical_oracle
         {["/a" := true; "/a/b" := true; "/c" := false; "/c/d" := true]}.
Proof.
  split; [exact canonical_oracle_valid|]. split; [exact reverse_oracle_valid|].
  exact (overlap_removal_idempotent canonical_oracle reverse_oracle _
           canonical_oracle_valid reverse_oracle_valid).
Defined.

(** X10. Nothing the user listed is lost without cover: every candidate
    of a resolution has a string prefix (possibly itself) among the paths
    the resolution returns. *)
Theorem every_candidate_is_covered (Glob : string -> Result (list string))
  (o : RangeOracle) (paths : list string) (extensions R : gmap string bool)
  (p : string) :
  valid_oracle o ->
  resolvePaths Glob o paths extensions = Ok R ->
  candidate Glob extensions paths p ->
  exists q, q ∈ dom R /\ HasPrefix p q = true.
Proof.
  intros Hv. unfold resolvePaths.
  destruct (collect_paths Glob paths extensions ∅) as [C|] eqn:EC; [|done].
  intros [= <-] Hc. apply kept_prefix_exists; [done| |].
  - apply (collect_paths_true _ _ _ _ _ EC).
    intros k b Hk. by rewrite lookup_empty in Hk.
  - apply (collect_paths_dom _ _ _ _ _ p EC). by right.
Qed.

Lemma every_candidate_is_covered_witness :
  valid_oracle reverse_oracle
  /\ resolvePaths scenarioGlob reverse_oracle
       ["/root/proj/sub/deep"; "/root/proj"; "/root/proj/sub"] {[".go" := true]}
     = Ok {["/root/proj" := true]}
  /\ candidate scenarioGlob {[".go" := true]}
       ["/root/proj/sub/deep"; "/root/proj"; "/root/proj/sub"]
       "/root/proj/sub/deep"
  /\ exists q, q ∈ dom ({["/root/proj" := true]} : gmap string bool)
               /\ HasPrefix "/root/proj/sub/deep" q = true.
Proof.
  assert (H : resolvePaths scenarioGlob reverse_oracle
                ["/root/proj/sub/deep"; "/root/proj"; "/root/proj/sub"]
                {[".go" := true]} = Ok {["/root/proj" := true]}).
  { vm_compute. reflexivity. }
  assert (Hc : candidate scenarioGlob {[".go" := true]}
                 ["/root/proj/sub/deep"; "/root/proj"; "/root/proj/sub"]
                 "/root/proj/sub/deep").
  { exists "/root/proj/sub/deep". split; [left | reflexivity]. }
  split; [exact reverse_oracle_valid|]. split; [exact H|]. split; [exact Hc|].
  exact (every_candidate_is_covered scenarioGlob reverse_oracle _ _ _ _
           reverse_oracle_valid H Hc).
Defined.

(** ** Construction *)

Lemma NewWatcher_inv (Glob : string -> Result (list string))
  (defaultInterval : Z) (defaultExts : list string) (ow oi : RangeOracle)
  (interval : Z) (watch ignore extensions : list string) (w : watcher) :
  NewWatcher Glob defaultInterval defaultExts ow oi interval watch ignore
    extensions = Ok w ->
  pollInterval w = (if interval =? 0 then defaultInterval else interval)
  /\ allowedExtensions w
     = fold_left (fun m ext => <["." ++ ext := true]> m)
         (effective_extensions defaultExts extensions) (∅ : gmap string bool)
  /\ resolvePaths Glob ow watch (allowedExtensions w) = Ok (watchItems w)
  /\ resolvePaths Glob oi ignore (allowedExtensions w) = Ok (ignoreItems w).
Proof.
  unfold NewWatcher, effective_extensions.
  destruct (resolvePaths Glob ow watch _) as [wp|] eqn:Ew; [|done].
  destruct (resolvePaths Glob oi ignore _) as [ip|] eqn:Ei; [|done].
  intros [= <-]. simpl. done.
Qed.

Lemma resolvePaths_overlap_free (Glob : string -> Result (list string))
  (o : RangeOracle) (paths : list string) (extensions R : gmap string bool)
  (p q : string) :
  valid_oracle o ->
  resolvePaths Glob o paths extensions = Ok R ->
  p ∈ dom R -> q ∈ dom R -> p <> q -> HasPrefix q p = false.
Proof.
  intros Hv HR [vp Hp]%elem_of_dom [vq Hq]%elem_of_dom Hne.
  apply (resolvePaths_lookup _ _ _ _ _ _ _ Hv HR) in Hp as (_ & Hcp & _).
  apply (resolvePaths_lookup _ _ _ _ _ _ _ Hv HR) in Hq as (_ & _ & Hno).
  destruct (HasPrefix q p) eqn:E; [|done]. exfalso. apply Hno. eauto.
Qed.

Lemma resolvePaths_all_true (Glob : string -> Result (list string))
  (o : RangeOracle) (paths : list string) (extensions R : gmap string bool) :
  valid_oracle o ->
  resolvePaths Glob o paths extensions = Ok R -> all_true R.
Proof.
  intros Hv HR k v Hk.
  by apply (resolvePaths_lookup _ _ _ _ _ _ _ Hv HR) in Hk as [? _].
Qed.

(** X11. What a constructed watcher holds.  The poll interval is the one
    given, or the default when 0 was given (a negative one is kept).  The
    filter holds exactly the given extensions (the default ones when none
    was given), each with a dot put before it; so never the empty
    extension.  The watch set and the ignore set are both free of
    overlaps, and every value in the three maps is [true]. *)
Theorem constructed_watcher_fields (Glob : string -> Result (list string))
  (defaultInterval : Z) (defaultExts : list string) (ow oi : RangeOracle)
  (interval : Z) (watch ignore extensions : list string) (w : watcher) :
  valid_oracle ow -> valid_oracle oi ->
  NewWatcher Glob defaultInterval defaultExts ow oi interval watch ignore
    extensions = Ok w ->
  pollInterval w = (if interval =? 0 then defaultInterval else interval)
  /\ (forall k,
        has_key (allowedExtensions w) k = true <->
        exists ext,
          ext ∈ effective_extensions defaultExts extensions /\ k = "." ++ ext)
  /\ has_key (allowedExtensions w) "" = false
  /\ (forall p q, p ∈ dom (watchItems w) -> q ∈ dom (watchItems w) ->
                  p <> q -> HasPrefix q p = false)
  /\ (forall p q, p ∈ dom (ignoreItems w) -> q ∈ dom (ignoreItems w) ->
                  p <> q -> HasPrefix q p = false)
  /\ all_true (allowedExtensions w)
  /\ all_true (watchItems w) /\ all_true (ignoreItems w).
Proof.
  intros Hvw Hvi HN.
  destruct (NewWatcher_inv _ _ _ _ _ _ _ _ _ _ HN) as (Hpi & Hext & Hw & Hi).
  assert (Hkeys : forall k,
    has_key (allowedExtensions w) k = true <->
    exists ext,
      ext ∈ effective_extensions defaultExts extensions /\ k = "." ++ ext).
  { intros k. unfold has_key. rewrite bool_decide_eq_true, Hext. split.
    - intros [v Hv]. apply allowedExts_keys in Hv as [(ext & ? & ? & _)|[_ Hv]].
      + eauto.
      + by rewrite lookup_empty in Hv.
    - intros (ext & Hin & ->). exists true. apply allowedExts_keys.
      left. eauto. }
  split; [done|]. split; [exact Hkeys|]. split; [|split; [|split; [|split]]].
  - destruct (has_key (allowedExtensions w) "") eqn:E; [|done].
    apply Hkeys in E as (ext & _ & Heq). discriminate.
  - intros p q. by apply (resolvePaths_overlap_free _ _ _ _ _ _ _ Hvw Hw).
  - intros p q. by apply (resolvePaths_overlap_free _ _ _ _ _ _ _ Hvi Hi).
  - intros k v. rewrite Hext. intros Hk.
    apply allowedExts_keys in Hk as [(_ & _ & _ & ->)|[_ Hk]]; [done|].
    by rewrite lookup_empty in Hk.
  - split.
    + by apply (resolvePaths_all_true _ _ _ _ _ Hvw Hw).
    + by apply (resolvePaths_all_true _ _ _ _ _ Hvi Hi).
Qed.

Lemma constructed_watcher_fields_witness :
  valid_oracle canonical_oracle /\ valid_oracle reverse_oracle
  /\ NewWatcher scenarioGlob 500 ["go"] canonical_oracle reverse_oracle
       0 ["/a"; "/b"] [] [] = Ok (rootsWatcher ["/a"; "/b"])
  /\ pollInterval (rootsWatcher ["/a"; "/b"]) = 500
  /\ has_key (allowedExtensions (rootsWatcher ["/a"; "/b"])) "" = false.
Proof.
  assert (H : NewWatcher scenarioGlob 500 ["go"] canonical_oracle
                reverse_oracle 0 ["/a"; "/b"] [] []
              = Ok (rootsWatcher ["/a"; "/b"])).
  { vm_compute. reflexivity. }
  split; [exact canonical_oracle_valid|]. split; [exact reverse_oracle_valid|].
  split; [exact H|].
  pose proof (constructed_watcher_fields scenarioGlob 500 ["go"]
                canonical_oracle reverse_oracle 0 ["/a"; "/b"] [] [] _
                canonical_oracle_valid reverse_oracle_valid H)
    as (Hp & _ & He & _).
  split; [exact Hp | exact He].
Defined.

(** X12. Overlap removal goes by string prefix, on the ignore list as on
    the watch list.  So a listed entry is dropped from the set whenever
    another listed literal entry is a proper string prefix of it, even if
    the two are siblings on disk: with [/root/proj/x] and
    [/root/proj/x.go] both listed to be ignored, [/root/proj/x.go] is not
    in the ignore set of the watcher. *)
Theorem listed_entry_dropped_by_prefix (Glob : string -> Result (list string))
  (defaultInterval : Z) (defaultExts : list string) (ow oi : RangeOracle)
  (interval : Z) (watch ignore extensions : list string) (w : watcher)
  (p q : string) :
  valid_oracle ow -> valid_oracle oi ->
  NewWatcher Glob defaultInterval defaultExts ow oi interval watch ignore
    extensions = Ok w ->
  Contains p "*" = false -> q <> p -> HasPrefix q p = true ->
  (p ∈ watch -> has_key (watchItems w) q = false)
  /\ (p ∈ ignore -> has_key (ignoreItems w) q = false).
Proof.
  intros Hvw Hvi HN Hg Hne Hpre.
  destruct (NewWatcher_inv _ _ _ _ _ _ _ _ _ _ HN) as (_ & _ & Hw & Hi).
  assert (Hdrop : forall o paths R,
    valid_oracle o ->
    resolvePaths Glob o paths (allowedExtensions w) = Ok R ->
    p ∈ paths -> has_key R q = false).
  { intros o paths R Hv HR Hin. unfold has_key.
    apply bool_decide_eq_false. intros [v Hq].
    apply (resolvePaths_lookup _ _ _ _ _ _ _ Hv HR) in Hq as (_ & _ & Hno).
    apply Hno. exists p. split; [|done].
    exists p. split; [done|]. unfold kept_from. by rewrite Hg. }
  split; intros Hin.
  - exact (Hdrop ow watch _ Hvw Hw Hin).
  - exact (Hdrop oi ignore _ Hvi Hi Hin).
Qed.

Lemma listed_entry_dropped_by_prefix_witness :
  valid_oracle canonical_oracle /\ valid_oracle reverse_oracle
  /\ Contains "/root/proj/x" "*" = false
  /\ "/root/proj/x.go" <> "/root/proj/x"
  /\ HasPrefix "/root/proj/x.go" "/root/proj/x" = true
  /\ "/root/proj/x" ∈ ["/root/proj/sub"; "/root/proj/x"; "/root/proj/x.go"]
  /\ NewWatcher scenarioGlob 500 ["go"] canonical_oracle reverse_oracle
       0 ["/root/proj"] ["/root/proj/sub"; "/root/proj/x"; "/root/proj/x.go"] []
     = Ok (scenarioWatcher ["/root/proj/sub"; "/root/proj/x"])
  /\ has_key (ignoreItems (scenarioWatcher ["/root/proj/sub"; "/root/proj/x"])) "/root/proj/x.go"
     = false
  /\ scanChange (scenarioWatcher ["/root/proj/sub"; "/root/proj/x"]) scenarioFS 5 "/root/proj"
     = Normal ("/root/proj/x.go", None).
Proof.
  assert (H : NewWatcher scenarioGlob 500 ["go"] canonical_oracle
                reverse_oracle 0 ["/root/proj"]
                ["/root/proj/sub"; "/root/proj/x"; "/root/proj/x.go"] []
              = Ok (scenarioWatcher ["/root/proj/sub"; "/root/proj/x"])).
  { vm_compute. reflexivity. }
  assert (Hin : "/root/proj/x" ∈ ["/root/proj/sub"; "/root/proj/x"; "/root/proj/x.go"]) by (right; left).
  split; [exact canonical_oracle_valid|]. split; [exact reverse_oracle_valid|].
  split; [reflexivity|]. split; [discriminate|]. split; [reflexivity|].
  split; [exact Hin|]. split; [exact H|]. split; [|vm_compute; reflexivity].
  apply (proj2 (listed_entry_dropped_by_prefix scenarioGlob 500 ["go"]
                  canonical_oracle reverse_oracle 0 _ _ _ _
                  "/root/proj/x" "/root/proj/x.go"
                  canonical_oracle_valid reverse_oracle_valid H
                  eq_refl ltac:(discriminate) eq_refl) Hin).
Defined.

Lemma ext_scan_shape (r acc : list ascii) :
  Forall (fun c => c <> dot /\ c <> slash) acc ->
  ext_scan r acc = []
  \/ exists tl, ext_scan r acc = dot :: tl
                /\ Forall (fun c => c <> dot /\ c <> slash) tl.
Proof.
  revert acc. induction r as [|c r IH]; intros acc Hacc; simpl; [by left|].
  unfold IsPathSeparator.
  destruct (Ascii.eqb_spec c slash) as [->|Hs]; [by left|].
  destruct (Ascii.eqb_spec c dot) as [->|Hd]; [right; eauto|].
  apply IH. by constructor.
Qed.

Lemma Contains_byte_false (l : list ascii) (d : ascii) :
  Forall (fun c => c <> d) l ->
  Contains (string_of_list_ascii l) (String d EmptyString) = false.
Proof.
  induction 1 as [|c l Hc _ IH]; [done|].
  cbn [string_of_list_ascii Contains HasPrefix]. rewrite IH.
  destruct (Ascii.eqb_spec d c) as [->|_]; [done|]. done.
Qed.

(** A non-empty [filepath.Ext] is a dot followed by bytes that are
    neither a dot nor a slash. *)
Lemma Ext_shape (path ext : string) :
  Ext path = "." ++ ext ->
  Contains ext "." = false /\ Contains ext "/" = false.
Proof.
  unfold Ext.
  destruct (ext_scan_shape (rev (list_ascii_of_string path)) [])
    as [->|(tl & -> & Htl)]; [constructor|done|].
  cbn [string_of_list_ascii]. unfold String.append. intros [= <-].
  split; apply Contains_byte_false; eapply Forall_impl; eauto;
    by intros c [? ?].
Qed.

(** X13. A watcher built by [NewWatcher] reports only paths whose
    extension is one of the extensions it was given (the default ones when
    none was given), with the dot before it.  An extension given with a
    dot or a slash inside it (["tar.gz"], or [".go"] with its own dot)
    therefore never matches anything, and a path without extension is
    never reported. *)
Theorem reports_only_listed_extensions (Glob : string -> Result (list string))
  (defaultInterval : Z) (defaultExts : list string) (ow oi : RangeOracle)
  (interval : Z) (watch ignore extensions : list string) (w : watcher)
  (fs : FS) (t : Z) (root p : string) :
  NewWatcher Glob defaultInterval defaultExts ow oi interval watch ignore
    extensions = Ok w ->
  scanChange w fs t root = Normal (p, None) -> p <> "" ->
  exists ext,
    ext ∈ effective_extensions defaultExts extensions
    /\ Ext p = "." ++ ext
    /\ Contains ext "." = false /\ Contains ext "/" = false.
Proof.
  intros HN. destruct (NewWatcher_inv _ _ _ _ _ _ _ _ _ _ HN) as (_ & Hext & _).
  rewrite scanChange_scanList.
  destruct (scanList w t _ initialWalk) as [[b s']|] eqn:E; [|done].
  intros [= Hp] Hne. apply scanList_inv in E. destruct b.
  2:{ destruct E as [_ ->]. simpl in Hp. congruence. }
  destruct E as (pre & p' & info & post & _ & _ & Hv & ->).
  simpl in Hp. subst p'. apply verdict_Changed in Hv as [He _].
  unfold eligible in He. apply andb_true_iff in He as [_ He].
  unfold has_key in He. apply bool_decide_eq_true in He as [v Hk].
  rewrite Hext in Hk.
  apply allowedExts_keys in Hk as [(ext & Hin & Heq & _)|[_ Hk]].
  - exists ext. split; [done|]. split; [done|]. by apply (Ext_shape p).
  - by rewrite lookup_empty in Hk.
Qed.

Lemma reports_only_listed_extensions_witness :
  NewWatcher scenarioGlob 500 ["go"] canonical_oracle canonical_oracle
    0 ["/root/proj"] ["/root/proj/sub"] []
  = Ok (scenarioWatcher ["/root/proj/sub"])
  /\ scanChange (scenarioWatcher ["/root/proj/sub"]) scenarioFS 5 "/root/proj"
     = Normal ("/root/proj/x.go", None)
  /\ "/root/proj/x.go" <> ""
  /\ exists ext,
       ext ∈ effective_extensions ["go"] []
       /\ Ext "/root/proj/x.go" = "." ++ ext
       /\ Contains ext "." = false /\ Contains ext "/" = false.
Proof.
  assert (H : NewWatcher scenarioGlob 500 ["go"] canonical_oracle
                canonical_oracle 0 ["/root/proj"] ["/root/proj/sub"] []
              = Ok (scenarioWatcher ["/root/proj/sub"])).
  { vm_compute. reflexivity. }
  assert (Hs : scanChange (scenarioWatcher ["/root/proj/sub"]) scenarioFS 5
                 "/root/proj" = Normal ("/root/proj/x.go", None)).
  { vm_compute. reflexivity. }
  split; [exact H|]. split; [exact Hs|]. split; [discriminate|].
  apply (reports_only_listed_extensions scenarioGlob 500 ["go"]
           canonical_oracle canonical_oracle 0 _ _ _ _ scenarioFS 5
           "/root/proj" "/root/proj/x.go" H Hs).
  discriminate.
Defined.

(** ** The watch loop *)

Lemma watchRoots_fs (fsAt : nat -> FS) (now : nat -> Z)
  (range : nat -> list string -> list string) (w : watcher)
  (roots : list string) (st : LoopState) :
  (watchRoots (fsWorld fsAt now range) w roots st).2 <> Stopped
  /\ errors_of (trace (watchRoots (fsWorld fsAt now range) w roots st).1)
     = errors_of (trace st).
Proof.
  revert st. induction roots as [|root rest IH]; intros st; simpl; [done|].
  unfold watchRoot. cbn [scanAt fsWorld nowAt].
  pose proof (scanChange_no_error w (startTime st) (fsAt (scans st)) root) as Hno.
  destruct (scanChange w (fsAt (scans st)) (startTime st) root)
    as [[p [e|]]|] eqn:E.
  - exfalso. by apply (Hno p e).
  - destruct (String.eqb p ""); simpl.
    + destruct (IH {| startTime := startTime st; scans := S (scans st);
                      trace := (trace st
                                ++ [Scanned root (startTime st)
                                      (Normal (p, None))])%list |})
        as [H1 H2].
      split; [exact H1|]. rewrite H2. simpl.
      rewrite errors_of_app. simpl. by rewrite app_nil_r.
    + destruct (IH {| startTime := now (scans st); scans := S (scans st);
                      trace := ((trace st
                                 ++ [Scanned root (startTime st)
                                       (Normal (p, None))])
                                ++ [SendEvent p;
                                    SetStartTime (now (scans st))])%list |})
        as [H1 H2].
      split; [exact H1|]. rewrite H2. simpl.
      rewrite !errors_of_app. simpl. by rewrite !app_nil_r.
  - simpl. split; [done|]. rewrite errors_of_app. simpl. by rewrite app_nil_r.
Qed.

(** X14. Over a real filesystem the loop never delivers an error and
    never returns: since the scanner returns no error, [Watch] either goes
    on for ever or crashes in a scan, and nothing is ever sent on the
    channel [errors]. *)
Theorem watch_never_delivers_error (fsAt : nat -> FS) (now : nat -> Z)
  (range : nat -> list string -> list string) (n : nat) (w : watcher)
  (st0 : LoopState) :
  (Watch (fsWorld fsAt now range) n w st0).2 <> Stopped
  /\ errors_of (trace (Watch (fsWorld fsAt now range) n w st0).1)
     = errors_of (trace st0).
Proof.
  unfold Watch. generalize 0%nat as c. revert st0.
  induction n as [|n IH]; intros st0 c; simpl; [done|].
  unfold watchCycle.
  destruct (watchRoots_fs fsAt now range w
              (rangeAt (fsWorld fsAt now range) c (keys (watchItems w))) st0)
    as [H1 H2].
  destruct (watchRoots _ w _ st0) as [st1 [| |]]; simpl in *; try done.
  destruct (IH (slept w st1) (S c)) as [H3 H4].
  split; [exact H3|]. rewrite H4. simpl.
  rewrite errors_of_app. simpl. by rewrite app_nil_r.
Qed.

(** X15. With an empty watch set the loop scans nothing: it sleeps, cycle
    after cycle, and sends nothing. *)
Theorem empty_watch_set_only_sleeps (W : World) (n : nat) (w : watcher)
  (st : LoopState) :
  watchItems w = ∅ ->
  (forall c, rangeAt W c [] = []) ->
  Watch W n w st
  = ({| startTime := startTime st; scans := scans st;
        trace := (trace st ++ replicate n (Sleep (sleepDuration w)))%list |},
     Running).
Proof.
  intros Hw Hr. unfold Watch. generalize 0%nat as c. revert st.
  induction n as [|n IH]; intros st c; simpl.
  { rewrite app_nil_r. by destruct st. }
  unfold watchCycle, keys. rewrite Hw, map_to_list_empty. simpl.
  rewrite Hr. simpl. rewrite IH. simpl. by rewrite <- app_assoc.
Qed.

Lemma empty_watch_set_only_sleeps_witness :
  watchItems (rootsWatcher []) = ∅
  /\ (forall c, rangeAt stillWorld c [] = [])
  /\ Watch stillWorld 3 (rootsWatcher []) (programStart 0)
     = ({| startTime := 0; scans := 0;
           trace := ([] ++ replicate 3 (Sleep (sleepDuration (rootsWatcher []))))%list |},
        Running).
Proof.
  split; [reflexivity|]. split; [reflexivity|].
  exact (empty_watch_set_only_sleeps stillWorld 3 (rootsWatcher [])
           (programStart 0) eq_refl (fun _ => eq_refl)).
Defined.

(** X16. The sleep between two cycles is the poll interval in
    milliseconds as long as the product fits in 64 bits, that is for an
    interval of at most 9223372036854 ms in absolute value; it is always
    a 64-bit value, congruent to the product modulo 2^64. *)
Theorem sleep_duration_range (w : watcher) :
  (-9223372036854 <= pollInterval w <= 9223372036854 ->
   sleepDuration w = pollInterval w * 1000000)
  /\ - 2 ^ 63 <= sleepDuration w < 2 ^ 63
  /\ (sleepDuration w - pollInterval w * 1000000) mod 2 ^ 64 = 0.
Proof.
  unfold sleepDuration, wrap64.
  set (x := pollInterval w * 1000000).
  assert (Hpos : 0 < 2 ^ 64) by lia.
  pose proof (Z.mod_pos_bound (x + 2 ^ 63) (2 ^ 64) Hpos) as Hb.
  split; [|split].
  - intros Hr. rewrite Z.mod_small; lia.
  - lia.
  - rewrite (Z.mod_eq (x + 2 ^ 63) (2 ^ 64)) by lia.
    replace (x + 2 ^ 63 - 2 ^ 64 * ((x + 2 ^ 63) / 2 ^ 64) - 2 ^ 63 - x)
      with (- ((x + 2 ^ 63) / 2 ^ 64) * 2 ^ 64) by lia.
    apply Z.mod_mul. lia.
Qed.

Lemma sleep_duration_range_witness :
  -9223372036854 <= pollInterval (rootsWatcher ["/a"]) <= 9223372036854
  /\ sleepDuration (rootsWatcher ["/a"]) = 500000000.
Proof.
  split; [simpl; lia|].
  apply (proj1 (sleep_duration_range (rootsWatcher ["/a"]))). simpl. lia.
Defined.

(** The product overflows for an interval of 9223372036855 ms: the
    duration is negative, and [time.Sleep] returns at once. *)
Example sleep_duration_overflow :
  sleepDuration {| pollInterval := 9223372036855; watchItems := ∅;
                   ignoreItems := ∅; allowedExtensions := ∅ |}
  = -9223372036854551616.
Proof. reflexivity. Qed.

Lemma baseline_after_app (cur : Z) (tr1 tr2 : list Action) :
  baseline_after cur (tr1 ++ tr2)
  = baseline_after (baseline_after cur tr1) tr2.
Proof. unfold baseline_after. apply fold_left_app. Qed.

Lemma baselines_consistent_app (cur : Z) (tr1 tr2 : list Action) :
  baselines_consistent cur (tr1 ++ tr2) <->
  baselines_consistent cur tr1
  /\ baselines_consistent (baseline_after cur tr1) tr2.
Proof.
  revert cur. induction tr1 as [|a tr1 IH]; intros cur; simpl; [tauto|].
  destruct a; simpl; rewrite ?IH; unfold baseline_after; simpl; tauto.
Qed.

Lemma watchRoot_in_step (W : World) (w : watcher) (t0 : Z) (root : string)
  (st : LoopState) :
  in_step t0 st -> in_step t0 (watchRoot W w root st).1.
Proof.
  intros [Hc Hs]. unfold watchRoot, in_step.
  destruct (scanAt W (scans st) w (startTime st) root) as [[p [e|]]|];
    [|destruct (String.eqb p "")|]; simpl;
    rewrite ?baselines_consistent_app, ?baseline_after_app; simpl;
    unfold baseline_after at 1; simpl; auto.
Qed.

Lemma watchRoots_in_step (W : World) (w : watcher) (t0 : Z)
  (roots : list string) (st : LoopState) :
  in_step t0 st -> in_step t0 (watchRoots W w roots st).1.
Proof.
  revert st. induction roots as [|root rest IH]; intros st Hst; simpl; [done|].
  pose proof (watchRoot_in_step W w t0 root st Hst) as H1.
  destruct (watchRoot W w root st) as [st1 [| |]]; simpl in *; auto.
Qed.

Lemma watchFrom_in_step (W : World) (w : watcher) (t0 : Z) (n c : nat)
  (st : LoopState) :
  in_step t0 st -> in_step t0 (watchFrom W n c w st).1.
Proof.
  revert c st. induction n as [|n IH]; intros c st Hst; simpl; [done|].
  unfold watchCycle.
  pose proof (watchRoots_in_step W w t0
                (rangeAt W c (keys (watchItems w))) st Hst) as H1.
  destruct (watchRoots W w _ st) as [st1 [| |]]; simpl in *; auto.
  apply IH. destruct H1 as [Hc Hs]. unfold in_step, slept. simpl.
  rewrite baselines_consistent_app, baseline_after_app. simpl. auto.
Qed.

Lemma watchFrom_events (W : World) (w : watcher) (n c : nat)
  (st st' : LoopState) (status : Status) :
  watchFrom W n c w st = (st', status) ->
  exists delta,
    trace st' = (trace st ++ delta)%list
    /\ events_of delta = reports_of delta.
Proof.
  revert c st. induction n as [|n IH]; intros c st; simpl.
  { intros [= <- <-]. exists []. by rewrite app_nil_r. }
  unfold watchCycle.
  destruct (watchRoots W w _ st) as [st1 status1] eqn:E1.
  apply watchRoots_trace in E1 as (d1 & Ht1 & _ & _ & He1 & _).
  destruct status1.
  - intros H. apply IH in H as (d2 & Ht2 & He2).
    exists (d1 ++ Sleep (sleepDuration w) :: d2)%list.
    rewrite Ht2. simpl. rewrite Ht1, <- !app_assoc. split; [done|].
    rewrite events_of_app, reports_of_app, He1.
    change (Sleep (sleepDuration w) :: d2)
      with ([Sleep (sleepDuration w)] ++ d2)%list.
    by rewrite events_of_app, reports_of_app, He2.
  - intros [= <- <-]. eauto.
  - intros [= <- <-]. eauto.
Qed.

(** X17. Over a whole run of [Watch], the baseline moves only with the
    deliveries: the value of [startTime] at the end is that of the last
    assignment made (the initial one if none), every scan was given the
    value of the last assignment before it, and the paths sent on the
    channel [events] are, in order, exactly the changes the scans
    reported. *)
Theorem baseline_follows_deliveries (W : World) (n : nat) (w : watcher)
  (st0 st : LoopState) (status : Status) :
  trace st0 = [] ->
  Watch W n w st0 = (st, status) ->
  startTime st = baseline_after (startTime st0) (trace st)
  /\ (forall pre root b r post,
        trace st = (pre ++ Scanned root b r :: post)%list ->
        b = baseline_after (startTime st0) pre)
  /\ events_of (trace st) = reports_of (trace st).
Proof.
  intros H0 HW. unfold Watch in HW.
  assert (Hst0 : in_step (startTime st0) st0).
  { unfold in_step. by rewrite H0. }
  pose proof (watchFrom_in_step W w (startTime st0) n 0 st0 Hst0) as [Hc Hs].
  rewrite HW in Hc, Hs. simpl in Hc, Hs.
  split; [exact Hs|]. split.
  - intros pre root b r post Heq. rewrite Heq in Hc.
    apply baselines_consistent_app in Hc as [_ Hc]. simpl in Hc. tauto.
  - apply watchFrom_events in HW as (delta & Ht & He).
    rewrite H0 in Ht. simpl in Ht. by rewrite Ht.
Qed.

Lemma baseline_follows_deliveries_witness :
  trace (programStart 2) = []
  /\ Watch busyWorld 1 (rootsWatcher ["/a"; "/b"]) (programStart 2)
     = ({| startTime := 30; scans := 2;
           trace := [ Scanned "/a" 2 (Normal ("/a/x.go", None));
                      SendEvent "/a/x.go"; SetStartTime 10;
                      Scanned "/b" 10 (Normal ("/b/y.go", None));
                      SendEvent "/b/y.go"; SetStartTime 30;
                      Sleep 500000000 ] |}, Running)
  /\ 30 = baseline_after 2
            [ Scanned "/a" 2 (Normal ("/a/x.go", None));
              SendEvent "/a/x.go"; SetStartTime 10;
              Scanned "/b" 10 (Normal ("/b/y.go", None));
              SendEvent "/b/y.go"; SetStartTime 30;
              Sleep 500000000 ].
Proof.
  assert (H : Watch busyWorld 1 (rootsWatcher ["/a"; "/b"]) (programStart 2)
     = ({| startTime := 30; scans := 2;
           trace := [ Scanned "/a" 2 (Normal ("/a/x.go", None));
                      SendEvent "/a/x.go"; SetStartTime 10;
                      Scanned "/b" 10 (Normal ("/b/y.go", None));
                      SendEvent "/b/y.go"; SetStartTime 30;
                      Sleep 500000000 ] |}, Running)).
  { vm_compute. reflexivity. }
  split; [reflexivity|]. split; [exact H|].
  exact (proj1 (baseline_follows_deliveries busyWorld 1
                  (rootsWatcher ["/a"; "/b"]) (programStart 2) _ _
                  eq_refl H)).
Defined.

(** ** Construction: failure and independence *)

Lemma resolvePaths_error (Glob : string -> Result (list string))
  (o : RangeOracle) (paths : list string) (extensions : gmap string bool)
  (err : error) :
  resolvePaths Glob o paths extensions = Err err ->
  exists q e, q ∈ paths /\ Contains q "*" = true /\ Glob q = Err e
              /\ err = globError q e.
Proof.
  unfold resolvePaths.
  pose proof (collect_paths_failure Glob extensions paths ∅) as Hf.
  destruct (first_failure Glob paths) as [[q e]|] eqn:Ef.
  - rewrite Hf. intros [= <-].
    destruct (first_failure_first Glob paths q e Ef)
      as (pre & post & -> & Hq & Hqe & _).
    exists q, e. split; [|done]. apply elem_of_app. right. left.
  - destruct Hf as [C ->]. done.
Qed.

(** X18. Construction fails for one reason only: an entry with a [*], in
    the watch list or in the ignore list, that fails to expand; the error
    returned is the one built from that entry.  In particular a literal
    path that does not exist, or an unknown extension, never makes it
    fail. *)
Theorem construction_fails_only_on_glob
  (Glob : string -> Result (list string))
  (defaultInterval : Z) (defaultExts : list string) (ow oi : RangeOracle)
  (interval : Z) (watch ignore extensions : list string) (err : error) :
  NewWatcher Glob defaultInterval defaultExts ow oi interval watch ignore
    extensions = Err err ->
  exists q e,
    (q ∈ watch \/ q ∈ ignore)
    /\ Contains q "*" = true /\ Glob q = Err e /\ err = globError q e.
Proof.
  unfold NewWatcher. set (exts := fold_left _ _ _).
  destruct (resolvePaths Glob ow watch exts) as [wp|e1] eqn:Ew.
  - destruct (resolvePaths Glob oi ignore exts) as [ip|e2] eqn:Ei; [done|].
    intros [= <-].
    destruct (resolvePaths_error _ _ _ _ _ Ei) as (q & e & ? & ? & ? & ?).
    exists q, e. auto.
  - intros [= <-].
    destruct (resolvePaths_error _ _ _ _ _ Ew) as (q & e & ? & ? & ? & ?).
    exists q, e. auto.
Qed.

Lemma construction_fails_only_on_glob_witness :
  NewWatcher scenarioGlob 500 ["go"] canonical_oracle canonical_oracle
    0 ["/root/proj"] ["src/[z-a]*"] []
  = Err (globError "src/[z-a]*" (Errorf "invalid character class range"))
  /\ exists q e,
       (q ∈ ["/root/proj"] \/ q ∈ ["src/[z-a]*"])
       /\ Contains q "*" = true /\ scenarioGlob q = Err e
       /\ globError "src/[z-a]*" (Errorf "invalid character class range")
          = globError q e.
Proof.
  assert (H : NewWatcher scenarioGlob 500 ["go"] canonical_oracle
                canonical_oracle 0 ["/root/proj"] ["src/[z-a]*"] []
              = Err (globError "src/[z-a]*" (Errorf "invalid character class range"))).
  { vm_compute. reflexivity. }
  split; [exact H|].
  exact (construction_fails_only_on_glob scenarioGlob 500 ["go"]
           canonical_oracle canonical_oracle 0 _ _ _ _ H).
Defined.

Lemma collect_paths_literal (Glob Glob' : string -> Result (list string))
  (paths : list string) (extensions extensions' result : gmap string bool) :
  (forall p, p ∈ paths -> Contains p "*" = false) ->
  collect_paths Glob paths extensions result
  = collect_paths Glob' paths extensions' result
  /\ exists C, collect_paths Glob paths extensions result = Ok C.
Proof.
  revert result. induction paths as [|a ps IH]; intros result Hlit; simpl.
  { eauto. }
  rewrite (Hlit a) by left. simpl.
  apply IH. intros p Hp. apply Hlit. by right.
Qed.

(** X19. A list without any [*] is resolved without the glob library and
    without the extension filter: the resolution succeeds whatever they
    are, and its result is the same for any two of them. *)
Theorem literal_resolution_needs_no_glob
  (Glob Glob' : string -> Result (list string)) (o : RangeOracle)
  (paths : list string) (extensions extensions' : gmap string bool) :
  (forall p, p ∈ paths -> Contains p "*" = false) ->
  resolvePaths Glob o paths extensions
  = resolvePaths Glob' o paths extensions'
  /\ exists R, resolvePaths Glob o paths extensions = Ok R.
Proof.
  intros Hlit. unfold resolvePaths.
  destruct (collect_paths_literal Glob Glob' paths extensions extensions' ∅ Hlit)
    as [Heq [C HC]].
  rewrite <- Heq, HC. eauto.
Qed.

Lemma literal_resolution_needs_no_glob_witness :
  (forall p, p ∈ ["/root/proj"; "src/[ab"; "main.txt"] ->
             Contains p "*" = false)
  /\ resolvePaths scenarioGlob reverse_oracle
       ["/root/proj"; "src/[ab"; "main.txt"] {[".go" := true]}
     = resolvePaths (fun _ => Err (Errorf "no glob")) reverse_oracle
         ["/root/proj"; "src/[ab"; "main.txt"] ∅.
Proof.
  assert (Hlit : forall p, p ∈ ["/root/proj"; "src/[ab"; "main.txt"] ->
                           Contains p "*" = false).
  { intros p Hp.
    repeat (apply elem_of_cons in Hp as [->|Hp]; [reflexivity|]).
    by apply elem_of_nil in Hp. }
  split; [exact Hlit|].
  exact (proj1 (literal_resolution_needs_no_glob scenarioGlob
                  (fun _ => Err (Errorf "no glob")) reverse_oracle _
                  {[".go" := true]} ∅ Hlit)).
Defined.
